(** * The exploration node of visualnav-transformer, embedded in Rocq

    Sources: [deployment/src/explore_apf.py] (the node with the depth
    projector and the potential-field corrector) and
    [deployment/src/explore.py] (the node without them).

    Numbers.  The node computes with numpy floats.  They are modelled by the
    real numbers of the Standard Library: every comparison, branch, loop and
    array operation of the source is kept, rounding is not.  The statements
    below are therefore about the algorithm the code implements, with exact
    arithmetic in place of IEEE arithmetic. *)

From Stdlib Require Import Reals Lra Lia ZArith List Bool.
From Stdlib Require Import Permutation Sorted.
Import ListNotations.

Open Scope R_scope.

(** * Part I: the program *)

(** ** The numpy operations the node uses *)

Module Np.

(** A row of an [(n, 2)] array. *)
Definition vec2 : Type := (R * R)%type.

(** Comparisons of scalars, as booleans. *)
Definition Rltb (a b : R) : bool := if Rlt_dec a b then true else false.
Definition Rgtb (a b : R) : bool := Rltb b a.
Definition Rleb (a b : R) : bool := if Rle_dec a b then true else false.
Definition Rgeb (a b : R) : bool := Rleb b a.

(** [np.zeros(2)] *)
Definition zeros : vec2 := (0, 0).

(** [a + b], [a - b], [a * s] and [a / s] on rows. *)
Definition add (a b : vec2) : vec2 := (fst a + fst b, snd a + snd b).
Definition sub (a b : vec2) : vec2 := (fst a - fst b, snd a - snd b).
Definition scale (s : R) (a : vec2) : vec2 := (s * fst a, s * snd a).
Definition vdiv (a : vec2) (s : R) : vec2 := (fst a / s, snd a / s).

(** [np.linalg.norm] of a row. *)
Definition norm (a : vec2) : R := sqrt (fst a * fst a + snd a * snd a).

(** [np.maximum] on scalars, and [np.clip(a, lo, hi)], which numpy computes
    as [minimum(maximum(a, lo), hi)]. *)
Definition maximum (a b : R) : R := Rmax a b.
Definition clip (a lo hi : R) : R := Rmin (Rmax a lo) hi.

(** [np.arctan2(y, x)]: the angle of the point [(x, y)], by quadrant, with
    the value [0] at the origin. *)
Definition arctan2 (y x : R) : R :=
  if Rltb 0 x then atan (y / x)
  else if Rltb x 0 then
    (if Rleb 0 y then atan (y / x) + PI else atan (y / x) - PI)
  else if Rltb 0 y then PI / 2
  else if Rltb y 0 then - (PI / 2)
  else 0.

(** [np.int32] of a float: the fractional part is dropped (rounding
    towards zero). *)
Definition int32 (r : R) : Z :=
  if Rleb 0 r then Int_part r else (- Int_part (- r))%Z.

(** [range(start, stop, step)] for a positive [step]. *)
Fixpoint range_from (n : nat) (start step : Z) : list Z :=
  match n with
  | O => []
  | S n' => start :: range_from n' (start + step) step
  end.

Definition range (start stop step : Z) : list Z :=
  range_from (Z.to_nat ((stop - start + step - 1) / step)) start step.

(** [np.where(mask)[0]]: the indices at which [mask] holds, increasing. *)
Fixpoint where_from {A : Type} (mask : A -> bool) (i : nat) (a : list A)
  : list nat :=
  match a with
  | [] => []
  | x :: a' =>
      if mask x then i :: where_from mask (S i) a'
      else where_from mask (S i) a'
  end.

Definition where_ {A : Type} (mask : A -> bool) (a : list A) : list nat :=
  where_from mask 0 a.

(** [np.argmin] of a non-empty 1-D array: the index of the first
    occurrence of the minimum.  [argmin_from i best_i best a] scans [a],
    whose first element has index [i]. *)
Fixpoint argmin_from (i best_i : nat) (best : R) (a : list R) : nat :=
  match a with
  | [] => best_i
  | x :: a' =>
      if Rltb x best then argmin_from (S i) i x a'
      else argmin_from (S i) best_i best a'
  end.

Definition argmin (a : list R) : nat :=
  match a with
  | [] => O
  | x :: a' => argmin_from 1 0 x a'
  end.

(** [a[i] = v] on a list; the loops below only write at indices of
    [range(len(a))]. *)
Fixpoint set_nth {A : Type} (a : list A) (i : nat) (v : A) : list A :=
  match a, i with
  | [], _ => []
  | _ :: a', O => v :: a'
  | x :: a', S i' => x :: set_nth a' i' v
  end.

End Np.

(** ** [collections.deque] with [maxlen] *)

Module Deque.

Record deque (A : Type) : Type := mk { maxlen : nat; items : list A }.
Arguments mk {A} _ _.
Arguments maxlen {A} _.
Arguments items {A} _.

(** [deque(maxlen=n)] *)
Definition empty {A : Type} (n : nat) : deque A := mk n [].

(** [d.append(x)]: the item goes to the right end; when the deque is then
    longer than [maxlen], the leftmost item is dropped. *)
Definition append {A : Type} (d : deque A) (x : A) : deque A :=
  let items' := items d ++ [x] in
  if (maxlen d <? length items')%nat then mk (maxlen d) (tl items')
  else mk (maxlen d) items'.

(** [len(d)] and [list(d)] *)
Definition len {A : Type} (d : deque A) : nat := length (items d).
Definition to_list {A : Type} (d : deque A) : list A := items d.

End Deque.

(** ** The potential-field corrector: the repulsive force *)

Module Force.

Import Np.

(** One turn of the loop of [compute_repulsive_force] (explore_apf.py,
    lines 311-316): [rep_force] is the accumulator, [obs] the obstacle of
    this turn; [continue] leaves the accumulator as it is. *)
Definition repulsion_step (point : vec2) (influence_range : R)
           (rep_force : vec2) (obs : vec2) : vec2 :=
  let vec := sub point obs in
  let dist := norm vec in
  if Rltb dist 1e-6 || Rgtb dist influence_range then rep_force
  else add rep_force (scale (1 / dist ^ 3) (vdiv vec dist)).

(** [compute_repulsive_force(point, obstacles, influence_range)];
    [obstacles] is [None] or an [(n, 2)] array. *)
Definition compute_repulsive_force (point : vec2)
           (obstacles : option (list vec2)) (influence_range : R) : vec2 :=
  match obstacles with
  | None => zeros
  | Some obs => fold_left (repulsion_step point influence_range) obs zeros
  end.

(** What one obstacle adds to the force: one turn of the loop from a zero
    accumulator. *)
Definition contribution (point : vec2) (influence_range : R) (obs : vec2)
  : vec2 :=
  repulsion_step point influence_range zeros obs.

End Force.

(** ** The potential-field corrector: trajectories *)

Module Corrector.

Import Np Force.

(** A trajectory is a [(len_traj_pred, 2)] array, a batch a
    [(num_samples, len_traj_pred, 2)] array; rows are lists. *)
Definition trajectory : Type := list vec2.
Definition batch : Type := list trajectory.

(** A [(2, 2)] array by rows, and a [(2, n)] array by rows. *)
Definition mat22 : Type := (vec2 * vec2)%type.
Definition mat2n : Type := (list R * list R)%type.

(** [a.T] for an [(n, 2)] array and for a [(2, n)] array. *)
Definition transpose_n2 (a : trajectory) : mat2n := split a.
Definition transpose_2n (a : mat2n) : trajectory := combine (fst a) (snd a).

(** [m @ a] for a [(2, 2)] array [m] and a [(2, n)] array [a]: entry
    [(k, j)] is [m[k][0] * a[0][j] + m[k][1] * a[1][j]]. *)
Definition matmul_row (r : vec2) (a : mat2n) : list R :=
  map (fun c : R * R => fst r * fst c + snd r * snd c)
      (combine (fst a) (snd a)).

Definition matmul (m : mat22) (a : mat2n) : mat2n :=
  (matmul_row (fst m) a, matmul_row (snd m) a).

(** Lines 338-343: the rotation matrix of [angle]. *)
Definition rotation_matrix (angle : R) : mat22 :=
  ((cos angle, - sin angle), (sin angle, cos angle)).

(** Line 344: [(rotation_matrix @ traj.T).T]. *)
Definition rotate (angle : R) (traj : trajectory) : trajectory :=
  transpose_2n (matmul (rotation_matrix angle) (transpose_n2 traj)).

(** The rotation of the plane by [angle] about the origin, on one step. *)
Definition rotate_point (angle : R) (p : vec2) : vec2 :=
  (cos angle * fst p - sin angle * snd p,
   sin angle * fst p + cos angle * snd p).

(** Lines 336-337: the heading correction of a force vector. *)
Definition heading_correction (max_force : vec2) : R :=
  clip (arctan2 (snd max_force) (fst max_force)) (- PI / 4) (PI / 4).

(** [self.obstacle_points is None or len(self.obstacle_points) == 0] *)
Definition no_obstacles (obstacle_points : option (list vec2)) : bool :=
  match obstacle_points with
  | None => true
  | Some obs => (length obs =? 0)%nat
  end.

Section Config.

(** [max_v] and [frame_rate] of config/robot.yaml. *)
Variables MAX_V RATE : R.

(** Line 330: [pt = updated_trajs[i, j] * (MAX_V / RATE)], for row
    [traj = updated_trajs[i]]. *)
Definition step_point (traj : trajectory) (j : nat) : vec2 :=
  scale (MAX_V / RATE) (nth j traj zeros).

(** Lines 330-335: one turn of the loop over [j]; the state is
    [(max_force, max_magnitude)].  [compute_repulsive_force] is called
    with its default [influence_range=1.0]. *)
Definition worst_force_step (obstacle_points : option (list vec2))
           (traj : trajectory) (st : vec2 * R) (j : nat) : vec2 * R :=
  let pt := step_point traj j in
  let rep_force := compute_repulsive_force pt obstacle_points 1 in
  let mag := norm rep_force in
  if Rgtb mag (snd st) then (rep_force, mag) else st.

(** Lines 327-335: [max_force] after the loop over
    [range(updated_trajs.shape[1])]. *)
Definition worst_force (obstacle_points : option (list vec2))
           (traj : trajectory) : vec2 :=
  fst (fold_left (worst_force_step obstacle_points traj)
                 (seq 0 (length traj)) (zeros, 0)).

(** Lines 327-344 for one row: the new value of [updated_trajs[i]]. *)
Definition correct_trajectory (obstacle_points : option (list vec2))
           (traj : trajectory) : trajectory :=
  rotate (heading_correction (worst_force obstacle_points traj)) traj.

(** *** Arrays as objects

    [apply_repulsive_forces_to_trajectories] returns either its argument
    or a copy it has written to, so arrays are modelled as objects: a
    heap is the list of the batches allocated so far and a reference is
    an index in it. *)
Definition ref : Type := nat.
Definition heap : Type := list batch.

Definition deref (h : heap) (r : ref) : option batch := nth_error h r.

(** [a.copy()]: a new object with the values of [a]. *)
Definition copy (h : heap) (a : batch) : heap * ref :=
  (h ++ [a], length h).

(** [a[i] = row] for the array at [r]. *)
Definition store_row (h : heap) (r : ref) (i : nat) (row : trajectory)
  : heap :=
  match deref h r with
  | Some a => set_nth h r (set_nth a i row)
  | None => h
  end.

(** Lines 327-344: one turn of the loop over [i], on the array at
    [updated_trajs]. *)
Definition correct_row (obstacle_points : option (list vec2))
           (updated_trajs : ref) (h : heap) (i : nat) : heap :=
  match deref h updated_trajs with
  | Some a =>
      store_row h updated_trajs i
                (correct_trajectory obstacle_points (nth i a []))
  | None => h
  end.

(** [apply_repulsive_forces_to_trajectories(trajectories)], lines
    319-345.  The result is the heap after the call and the reference
    returned; [None] when the call reads [trajectories] and it is not an
    array of the heap. *)
Definition apply_repulsive_forces_to_trajectories
           (obstacle_points : option (list vec2))
           (h : heap) (trajectories : ref) : option (heap * ref) :=
  if no_obstacles obstacle_points then Some (h, trajectories)
  else
    match deref h trajectories with
    | Some a =>
        let (h1, updated_trajs) := copy h a in
        Some (fold_left (correct_row obstacle_points updated_trajs)
                        (seq 0 (length a)) h1,
              updated_trajs)
    | None => None
    end.

(** The values of the array the corrector returns, as a function of the
    values of its argument. *)
Definition corrected_values (obstacle_points : option (list vec2))
           (a : batch) : batch :=
  if no_obstacles obstacle_points then a
  else map (correct_trajectory obstacle_points) a.

(** The ground position of step [j] in the words of the specification:
    the displacements of steps [0..j] summed, then scaled into obstacle
    units. *)
Definition accumulated_position (traj : trajectory) (j : nat) : vec2 :=
  scale (MAX_V / RATE) (fold_left add (firstn (S j) traj) zeros).

End Config.

End Corrector.

(** ** The depth projector *)

Module Projector.

Import Np.

(** [args.robot], and the per-robot values of lines 125-133. *)
Inductive robot : Type := locobot | locobot2 | robomaster | turtlebot4.

Definition safety_margin (r : robot) : R :=
  match r with
  | locobot | locobot2 => 0.05
  | robomaster => -0.1
  | turtlebot4 => 0.2
  end.

Definition proximity_threshold (r : robot) : R :=
  match r with
  | locobot | locobot2 => 1.0
  | robomaster => 1.3
  | turtlebot4 => 1.4
  end.

(** Lines 121, 137 and 138. *)
Definition top_view_size : Z * Z := (400, 400)%Z.
Definition top_view_sampling_step : Z := 5%Z.
Definition top_view_resolution (proximity : R) : R :=
  IZR (fst top_view_size) / proximity.

(** One entry of the flattened point cloud: [(X[k], Y[k], Z[k])].  The
    source keeps three parallel arrays and masks them together; here they
    are one list of triples. *)
Record point3 : Type := mkPoint { pX : R; pY : R; pZ : R }.

(** Line 269:
    [mask = (Z > 0) & (Z <= self.proximity_threshold) & (Y >= -0.05)]. *)
Definition mask (proximity : R) (p : point3) : bool :=
  Rgtb (pZ p) 0 && Rleb (pZ p) proximity && Rgeb (pY p) (-0.05).

(** Line 273: [Z = np.maximum(Z_0 - self.safety_margin, 1e-3)]. *)
Definition shift_depth (margin : R) (Z_0 : R) : R :=
  maximum (Z_0 - margin) 1e-3.

(** One entry of the parallel arrays of lines 274-288. *)
Record cell : Type := mkCell {
  img_x : Z; img_y : Z; depth_val : R; real_x : R; real_z : R
}.

(** Lines 273-275 and 286-288 for one point. *)
Definition rasterize (margin resolution : R) (p : point3) : cell :=
  let Z := shift_depth margin (pZ p) in
  {| img_x := int32 (IZR (fst top_view_size / 2) + pX p * resolution);
     img_y := int32 (IZR (snd top_view_size) - Z * resolution);
     depth_val := Z;
     real_x := pX p;
     real_z := Z |}.

(** Lines 277-282. *)
Definition valid (c : cell) : bool :=
  (0 <=? img_x c)%Z && (img_x c <? fst top_view_size)%Z
  && (0 <=? img_y c)%Z && (img_y c <? snd top_view_size)%Z.

(** Lines 273-288: the arrays after [[valid]]. *)
Definition valid_cells (margin resolution : R) (points : list point3)
  : list cell :=
  filter valid (map (rasterize margin resolution) points).

Definition no_cell : cell := mkCell 0 0 0 0 0.

(** Lines 292-295: one turn of the loop over the columns [x]. *)
Definition sample_column (cells : list cell) (sampled_obstacles : list vec2)
           (x : Z) : list vec2 :=
  let col_idxs := where_ (fun c => (img_x c =? x)%Z) cells in
  if (0 <? length col_idxs)%nat then
    let depths := map (fun i => depth_val (nth i cells no_cell)) col_idxs in
    let closest_idx := nth (argmin depths) col_idxs O in
    sampled_obstacles
      ++ [(real_x (nth closest_idx cells no_cell),
           real_z (nth closest_idx cells no_cell))]
  else sampled_obstacles.

(** Lines 290-295: [sampled_obstacles] after the loop. *)
Definition sampled_obstacles (cells : list cell) : list vec2 :=
  fold_left (sample_column cells)
            (range 0 (fst top_view_size) top_view_sampling_step) [].

(** Lines 297-303: the new value of [self.obstacle_points]; a row is
    [(x_local, y_local)]. *)
Definition to_obstacle_points (sampled : list vec2) : option (list vec2) :=
  match sampled with
  | [] => None
  | _ => Some (map (fun o : vec2 => (snd o, - fst o)) sampled)
  end.

(** [_update_top_view_and_obstacles(X, Y, Z_0)]: the value it leaves in
    [self.obstacle_points]. *)
Definition update_top_view_and_obstacles (margin resolution : R)
           (points : list point3) : option (list vec2) :=
  to_obstacle_points (sampled_obstacles (valid_cells margin resolution points)).

(** The column an obstacle point [(x_local, y_local)] was sampled in, and
    its forward distance. *)
Definition column_of (resolution : R) (o : vec2) : Z :=
  int32 (IZR (fst top_view_size / 2) + (- snd o) * resolution).
Definition forward_of (o : vec2) : R := fst o.


(** The rows of [self.obstacle_points]; [None] has no rows. *)
Definition obstacle_list (o : option (list vec2)) : list vec2 :=
  match o with
  | None => []
  | Some rows => rows
  end.

(** The row of [self.obstacle_points] made of a sampled cell. *)
Definition obstacle_of (c : cell) : vec2 := (real_z c, - real_x c).

(** A cell of [cells] in column [x], nearest among the cells of that
    column. *)
Definition nearest_in_column (cells : list cell) (x : Z) (c : cell) : Prop :=
  In c cells /\ img_x c = x
  /\ forall c', In c' cells -> img_x c' = x -> depth_val c <= depth_val c'.

(** Column [x] holds a cell. *)
Definition occupied (cells : list cell) (x : Z) : bool :=
  existsb (fun c => (img_x c =? x)%Z) cells.

End Projector.

(** ** The node: callbacks and messages *)

Module Node.

Import Np Deque Corrector Projector.

(** What a callback sends out, in order.  [IndexError] ends a callback
    that indexes an array out of its bounds. *)
Inductive event : Type :=
| LogOccupancy (n : nat)
| SamplerRun
| SampledActions (data : list R)
| Waypoint (x y : R)
| VizImage (is_apf_applied : bool)
| IndexError.

(** [a[i]] for a Python integer [i]: negative indices count from the
    end. *)
Definition py_index {A : Type} (a : list A) (i : Z) : option A :=
  let n := Z.of_nat (length a) in
  if ((0 <=? i) && (i <? n))%Z then nth_error a (Z.to_nat i)
  else if ((- n <=? i) && (i <? 0))%Z then nth_error a (Z.to_nat (n + i))
  else None.

(** [traj_batch.flatten()] *)
Definition flatten (b : batch) : list R :=
  flat_map (fun traj => flat_map (fun p : vec2 => [fst p; snd p]) traj) b.

Section Node.

(** A camera message with its image. *)
Variable frame : Type.

(** The depth network: [outputs["points"]] of a message, flattened to
    the list of its [(X, Y, Z)]. *)
Variable infer_points : frame -> list point3.

(** The trajectory sampler (vision encoder, denoising loop and
    [get_action]) on the context frames; [seed] stands for the random
    draws of one tick. *)
Variable seed : Type.
Variable sample : seed -> list frame -> batch.

(** [max_v] and [frame_rate] of config/robot.yaml. *)
Variables MAX_V RATE : R.

(** The fields of [ExplorationNode] the callbacks read and write. *)
Record node : Type := mkNode {
  robot_type : robot;             (* args.robot *)
  waypoint : Z;                   (* args.waypoint *)
  normalize : bool;               (* model_params.get("normalize", False) *)
  context_size : nat;
  context_queue : deque frame;
  last_ctx_time : Z;              (* nanoseconds *)
  obstacle_points : option (list vec2)
}.

(** [__init__]: [deque(maxlen=self.context_size + 1)], no obstacles. *)
Definition init (r : robot) (w : Z) (nrm : bool) (ctx : nat) (now : Z)
  : node :=
  mkNode r w nrm ctx (Deque.empty (ctx + 1)) now None.

(** [self.ctx_dt * 1e9] with [ctx_dt = 0.25]. *)
Definition ctx_dt_ns : Z := 250000000%Z.

(** explore_apf.py, [_image_cb], lines 230-270. *)
Definition image_cb_apf (n : node) (now : Z) (msg : frame)
  : node * list event :=
  if (now - last_ctx_time n <? ctx_dt_ns)%Z then (n, [])
  else
    let q := Deque.append (context_queue n) msg in
    let r := robot_type n in
    let points := filter (mask (proximity_threshold r)) (infer_points msg) in
    let obst :=
      update_top_view_and_obstacles
        (safety_margin r)
        (top_view_resolution (proximity_threshold r)) points in
    (mkNode r (waypoint n) (normalize n) (context_size n) q now obst,
     [LogOccupancy (Deque.len q)]).

(** explore.py, [_image_cb], lines 97-98. *)
Definition image_cb (n : node) (msg : frame) : node * list event :=
  (mkNode (robot_type n) (waypoint n) (normalize n) (context_size n)
          (Deque.append (context_queue n) msg)
          (last_ctx_time n) (obstacle_points n),
   []).

(** explore_apf.py, [_publish_action_msgs], lines 404-412. *)
Definition publish_action_msgs_apf (n : node) (traj_batch : batch)
  : list event :=
  SampledActions (0 :: flatten traj_batch)
  :: match py_index traj_batch 0 with
     | None => [IndexError]
     | Some t =>
         match py_index t (waypoint n) with
         | None => [IndexError]
         | Some chosen => [Waypoint (fst chosen) (snd chosen)]
         end
     end.

(** explore.py, [_publish_action_msgs], lines 149-159. *)
Definition publish_action_msgs (n : node) (traj_batch : batch)
  : list event :=
  SampledActions (0 :: flatten traj_batch)
  :: match py_index traj_batch 0 with
     | None => [IndexError]
     | Some t =>
         match py_index t (waypoint n) with
         | None => [IndexError]
         | Some chosen =>
             let chosen' :=
               if normalize n then scale (MAX_V / RATE) chosen
               else chosen in
             [Waypoint (fst chosen') (snd chosen')]
         end
     end.

(** A callback stops at an [IndexError]. *)
Definition raised (evs : list event) : bool :=
  existsb (fun e => match e with IndexError => true | _ => false end) evs.

(** explore_apf.py, [_timer_cb], lines 347-398.  The sampled batch is a
    new array, the only one of the heap the corrector is run on; the two
    [None] cases below are those of a reference that is not in the heap,
    which this heap rules out. *)
Definition timer_cb_apf (n : node) (s : seed) : node * list event :=
  if (Deque.len (context_queue n) <=? context_size n)%nat then (n, [])
  else
    let traj_batch := sample s (Deque.to_list (context_queue n)) in
    let is_apf_applied := negb (no_obstacles (obstacle_points n)) in
    match apply_repulsive_forces_to_trajectories
            MAX_V RATE (obstacle_points n) [traj_batch] O with
    | None => (n, [SamplerRun; IndexError])
    | Some (h, r) =>
        match deref h r with
        | None => (n, [SamplerRun; IndexError])
        | Some corrected =>
            let msgs := publish_action_msgs_apf n corrected in
            (n, SamplerRun :: msgs
                  ++ (if raised msgs then []
                      else [VizImage is_apf_applied]))
        end
    end.

(** explore.py, [_timer_cb], lines 100-143. *)
Definition timer_cb (n : node) (s : seed) : node * list event :=
  if (Deque.len (context_queue n) <=? context_size n)%nat then (n, [])
  else
    let naction_np := sample s (Deque.to_list (context_queue n)) in
    let msgs := publish_action_msgs n naction_np in
    (n, SamplerRun :: msgs
          ++ (if raised msgs then [] else [VizImage false])).

End Node.

Arguments mkNode {frame} _ _ _ _ _ _ _.
Arguments robot_type {frame} _.
Arguments waypoint {frame} _.
Arguments normalize {frame} _.
Arguments context_size {frame} _.
Arguments context_queue {frame} _.
Arguments last_ctx_time {frame} _.
Arguments obstacle_points {frame} _.
Arguments init {frame} _ _ _ _ _.
Arguments image_cb_apf {frame} _ _ _ _.
Arguments image_cb {frame} _ _.
Arguments publish_action_msgs_apf {frame} _ _.
Arguments publish_action_msgs {frame} _ _ _ _.
Arguments timer_cb_apf {frame seed} _ _ _ _ _.
Arguments timer_cb {frame seed} _ _ _ _ _.

End Node.

(** ** Runs of the image callback *)

Module Session.

Import Np Deque Corrector Projector Node.

Section Session.

Variable frame : Type.
Variable infer_points : frame -> list point3.

(** [_image_cb] of explore_apf.py called once per arrival, in order; an
    arrival is the clock reading and the message.  The trace pairs each
    clock reading with what the callback sent out. *)
Fixpoint run_image_cb_apf (n : node frame) (arrivals : list (Z * frame))
  : node frame * list (Z * list event) :=
  match arrivals with
  | [] => (n, [])
  | (now, msg) :: rest =>
      let (n1, evs) := image_cb_apf infer_points n now msg in
      let (n2, trace) := run_image_cb_apf n1 rest in
      (n2, (now, evs) :: trace)
  end.

(** [_image_cb] of explore.py called once per message, in order. *)
Definition run_image_cb (n : node frame) (msgs : list frame) : node frame :=
  fold_left (fun n msg => fst (image_cb n msg)) msgs n.

End Session.

Arguments run_image_cb_apf {frame} _ _ _.
Arguments run_image_cb {frame} _ _.

(** The clock readings of the arrivals that logged, which are those pushed
    to the context queue. *)
Definition logged_times (trace : list (Z * list event)) : list Z :=
  map fst
      (filter (fun p : Z * list event =>
                 match snd p with [] => false | _ => true end)
              trace).

(** Consecutive elements of [times] are at least [dt] apart. *)
Fixpoint gaps_at_least (dt : Z) (times : list Z) : Prop :=
  match times with
  | [] => True
  | t1 :: rest =>
      match rest with
      | [] => True
      | t2 :: _ => (dt <= t2 - t1)%Z /\ gaps_at_least dt rest
      end
  end.

End Session.

(** ** The array behind [chosen] in explore.py *)

Module InPlace.

Import Np Corrector Node.

(** The position [a[i]] reads for a Python integer [i], when there is
    one. *)
Definition py_position {A : Type} (a : list A) (i : Z) : option nat :=
  let n := Z.of_nat (length a) in
  if ((0 <=? i) && (i <? n))%Z then Some (Z.to_nat i)
  else if ((- n <=? i) && (i <? 0))%Z then Some (Z.to_nat (n + i))
  else None.

Section InPlace.

Variable frame : Type.
Variable seed : Type.
Variable sample : seed -> list frame -> batch.
Variables MAX_V RATE : R.

(** explore.py lines 154-156: [chosen = traj_batch[0][self.args.waypoint]]
    is a view of the array, so [chosen *= MAX_V / RATE] writes to
    [traj_batch].  The value is the array after [_publish_action_msgs];
    an index out of bounds raises before any write. *)
Definition array_after_publish (n : node frame) (traj_batch : batch)
  : batch :=
  match traj_batch with
  | [] => traj_batch
  | t :: rest =>
      match py_position t (waypoint n) with
      | None => traj_batch
      | Some k =>
          if normalize n
          then set_nth t k (scale (MAX_V / RATE) (nth k t zeros)) :: rest
          else traj_batch
      end
  end.

(** explore.py lines 139-143: the array [_publish_viz_image] is called
    with, when the tick gets there. *)
Definition viz_input (n : node frame) (s : seed) : option batch :=
  if (Deque.len (context_queue n) <=? context_size n)%nat then None
  else
    let naction_np := sample s (Deque.to_list (context_queue n)) in
    if raised (publish_action_msgs MAX_V RATE n naction_np) then None
    else Some (array_after_publish n naction_np).

End InPlace.

Arguments array_after_publish {frame} _ _ _ _.
Arguments viz_input {frame seed} _ _ _ _ _.

End InPlace.

(** ** The overlay *)

Module Viz.

Import Np Corrector.

Definition pixel : Type := (Z * Z)%type.
Definition color : Type := (Z * Z * Z)%type.

(** [int(x)] of a float: the fractional part is dropped. *)
Definition py_int (r : R) : Z :=
  if Rleb 0 r then Int_part r else (- Int_part (- r))%Z.

(** [cx = img_w // 2] and [cy = int(img_h * 0.95)]. *)
Definition origin (img_w img_h : Z) : pixel :=
  ((img_w / 2)%Z, py_int (IZR img_h * 0.95)).

(** What [cv2.polylines] is called with. *)
Record polyline : Type := mkPolyline {
  pl_points : list pixel; pl_color : color; pl_thickness : Z
}.

(** explore_apf.py lines 449-455: one turn of the loop over the steps
    [(dx, dy)]; the state is [(acc_x, acc_y, pts)].  [pixels_per_m = 3.0]
    and [lateral_scale = 1.0]. *)
Definition trace_step_apf (o : pixel) (st : R * R * list pixel) (d : vec2)
  : R * R * list pixel :=
  let acc_x := fst (fst st) + fst d in
  let acc_y := snd (fst st) + snd d in
  (acc_x, acc_y,
   snd st ++ [(py_int (IZR (fst o) - acc_y * 3.0 * 1.0),
               py_int (IZR (snd o) - acc_x * 3.0))]).

(** explore_apf.py lines 444-455: [pts] for one trajectory; it starts at
    the robot. *)
Definition points_apf (o : pixel) (traj : trajectory) : list pixel :=
  snd (fold_left (trace_step_apf o) traj (0, 0, [o])).

(** explore_apf.py lines 459-466. *)
Definition color_apf (is_apf_applied : bool) (i : nat) : color :=
  if is_apf_applied then
    (if (i =? 0)%nat then (0, 0, 255) else (180, 0, 255))%Z
  else
    (if (i =? 0)%nat then (0, 255, 0) else (255, 200, 0))%Z.

(** explore_apf.py lines 443-467: the polylines drawn for a batch. *)
Definition draw_apf (o : pixel) (is_apf_applied : bool)
           (it : nat * trajectory) : list polyline :=
  let pts := points_apf o (snd it) in
  if (2 <=? length pts)%nat
  then [mkPolyline pts (color_apf is_apf_applied (fst it)) 2]
  else [].

Definition polylines_apf (o : pixel) (is_apf_applied : bool)
           (traj_batch : batch) : list polyline :=
  flat_map (draw_apf o is_apf_applied)
           (combine (seq 0 (length traj_batch)) traj_batch).

(** explore.py lines 173-178: one turn of the loop over the steps;
    [PIXELS_PER_M = 3.0].  The column is taken from [dy], the row from
    [acc_x]. *)
Definition trace_step (o : pixel) (st : R * R * list pixel) (d : vec2)
  : R * R * list pixel :=
  let acc_x := fst (fst st) + fst d in
  let acc_y := snd (fst st) + snd d in
  (acc_x, acc_y,
   snd st ++ [(py_int (IZR (fst o) - snd d * 3.0),
               py_int (IZR (snd o) - acc_x * 3.0))]).

(** explore.py lines 171-178: [pts] for one trajectory. *)
Definition points (o : pixel) (traj : trajectory) : list pixel :=
  snd (fold_left (trace_step o) traj (0, 0, [])).

(** explore.py lines 170-182: the polylines drawn for a batch. *)
Definition draw (o : pixel) (it : nat * trajectory) : list polyline :=
  let pts := points o (snd it) in
  if (2 <=? length pts)%nat
  then [mkPolyline pts
                   (if (fst it =? 0)%nat then (0, 255, 0) else (255, 200, 0))%Z
                   1]
  else [].

Definition polylines (o : pixel) (traj_batch : batch) : list polyline :=
  flat_map (draw o) (combine (seq 0 (length traj_batch)) traj_batch).

End Viz.

(** * Part II: properties *)

(** ** Facts about the numpy operations *)

Module NpFacts.

Import Np.

Lemma Rltb_true a b : Rltb a b = true <-> a < b.
Proof.
  unfold Rltb; destruct (Rlt_dec a b); split; intros; auto; discriminate.
Qed.

Lemma Rltb_false a b : Rltb a b = false <-> b <= a.
Proof.
  unfold Rltb; destruct (Rlt_dec a b); split; intros;
    try discriminate; try reflexivity; lra.
Qed.

Lemma Rleb_true a b : Rleb a b = true <-> a <= b.
Proof.
  unfold Rleb; destruct (Rle_dec a b); split; intros; auto; discriminate.
Qed.

Lemma Rleb_false a b : Rleb a b = false <-> b < a.
Proof.
  unfold Rleb; destruct (Rle_dec a b); split; intros;
    try discriminate; try reflexivity; lra.
Qed.

Lemma Rgtb_true a b : Rgtb a b = true <-> b < a.
Proof. apply Rltb_true. Qed.

Lemma Rgtb_false a b : Rgtb a b = false <-> a <= b.
Proof. apply Rltb_false. Qed.

Lemma Rgeb_true a b : Rgeb a b = true <-> b <= a.
Proof. apply Rleb_true. Qed.

Lemma add_zeros_r a : add a zeros = a.
Proof. destruct a; unfold add, zeros; simpl; f_equal; lra. Qed.

Lemma add_zeros_l a : add zeros a = a.
Proof. destruct a; unfold add, zeros; simpl; f_equal; lra. Qed.

Lemma norm_nonneg a : 0 <= norm a.
Proof. apply sqrt_pos. Qed.

Lemma norm_zeros : norm zeros = 0.
Proof.
  unfold norm, zeros; simpl.
  replace (0 * 0 + 0 * 0) with 0 by lra. apply sqrt_0.
Qed.

Lemma norm_unit_x : norm (sub (1, 0) (0, 0)) = 1.
Proof.
  unfold norm, sub; simpl.
  replace ((1 - 0) * (1 - 0) + (0 - 0) * (0 - 0)) with 1 by lra.
  apply sqrt_1.
Qed.

Lemma clip_bounds a lo hi : lo <= hi -> lo <= clip a lo hi <= hi.
Proof.
  intros H; unfold clip, Rmin, Rmax.
  destruct (Rle_dec a lo); destruct (Rle_dec _ hi); lra.
Qed.

Lemma clip_inside a lo hi : lo <= a <= hi -> clip a lo hi = a.
Proof.
  intros H; unfold clip, Rmin, Rmax.
  destruct (Rle_dec a lo); destruct (Rle_dec _ hi); lra.
Qed.

Lemma arctan2_origin : arctan2 0 0 = 0.
Proof.
  unfold arctan2.
  destruct (Rltb 0 0) eqn:E; [ apply Rltb_true in E; lra | reflexivity ].
Qed.

End NpFacts.

(** ** The repulsive force *)

Module ForceFacts.

Import Np NpFacts Force.

Lemma repulsion_step_add point r acc obs :
  repulsion_step point r acc obs = add acc (contribution point r obs).
Proof.
  unfold contribution, repulsion_step; cbv zeta.
  destruct (Rltb _ _ || Rgtb _ _).
  - now rewrite add_zeros_r.
  - now rewrite add_zeros_l.
Qed.

Lemma fold_repulsion point r obs : forall acc,
  fold_left (repulsion_step point r) obs acc
  = fold_left add (map (contribution point r) obs) acc.
Proof.
  induction obs as [|o obs IH]; intros acc; simpl; [reflexivity|].
  now rewrite repulsion_step_add, IH.
Qed.

Lemma contribution_in_range point r obs :
  1e-6 <= norm (sub point obs) <= r ->
  contribution point r obs
  = scale (1 / norm (sub point obs) ^ 3)
          (vdiv (sub point obs) (norm (sub point obs))).
Proof.
  intros [Hlo Hhi]; unfold contribution, repulsion_step; cbv zeta.
  apply Rltb_false in Hlo. apply Rgtb_false in Hhi.
  rewrite Hlo, Hhi; simpl. apply add_zeros_l.
Qed.

Lemma contribution_out_of_range point r obs :
  norm (sub point obs) < 1e-6 \/ r < norm (sub point obs) ->
  contribution point r obs = zeros.
Proof.
  intros H; unfold contribution, repulsion_step; cbv zeta.
  destruct H as [H|H].
  - apply Rltb_true in H. now rewrite H.
  - apply Rgtb_true in H. rewrite H. now rewrite orb_true_r.
Qed.

Lemma force_at_unit_distance :
  compute_repulsive_force (1, 0) (Some [(0, 0)]) 1 = (1, 0).
Proof.
  unfold compute_repulsive_force; simpl.
  rewrite repulsion_step_add, add_zeros_l.
  rewrite contribution_in_range by (rewrite norm_unit_x; lra).
  rewrite norm_unit_x. unfold scale, vdiv, sub; simpl. f_equal; field.
Qed.

(** C1, as the specification states it, fails: with [influence_range = 1],
    an obstacle at distance exactly [1] from the query point is in range
    and the force is not zero. *)
Lemma C1_boundary_is_not_exclusive :
  norm (sub (1, 0) (0, 0)) = 1
  /\ compute_repulsive_force (1, 0) (Some [(0, 0)]) 1 <> zeros.
Proof.
  split; [apply norm_unit_x|].
  rewrite force_at_unit_distance. unfold zeros.
  intros H; injection H; intros; lra.
Qed.

(** C1, amended: the force is the sum, in array order, of one contribution
    per obstacle; an obstacle at distance [d] contributes
    [(1/d^3) * (vec/d)] when [1e-6 <= d <= influence_range] (both bounds
    included) and zero when [d < 1e-6] or [d > influence_range]. *)
Theorem C1_repulsive_force_contributions :
  forall (point : vec2) (obstacles : list vec2) (influence_range : R),
    compute_repulsive_force point (Some obstacles) influence_range
    = fold_left add (map (contribution point influence_range) obstacles)
                zeros
    /\ forall obs : vec2,
        let vec := sub point obs in
        let d := norm vec in
        (1e-6 <= d <= influence_range ->
         contribution point influence_range obs
         = scale (1 / d ^ 3) (vdiv vec d))
        /\ (d < 1e-6 \/ influence_range < d ->
            contribution point influence_range obs = zeros).
Proof.
  intros point obstacles r; split.
  - apply fold_repulsion.
  - intros obs vec d; split.
    + apply contribution_in_range.
    + apply contribution_out_of_range.
Qed.

Lemma C1_repulsive_force_contributions_witness :
  1e-6 <= norm (sub (1, 0) (0, 0)) <= 1
  /\ contribution (1, 0) 1 (0, 0)
     = scale (1 / norm (sub (1, 0) (0, 0)) ^ 3)
             (vdiv (sub (1, 0) (0, 0)) (norm (sub (1, 0) (0, 0)))).
Proof.
  assert (H : 1e-6 <= norm (sub (1, 0) (0, 0)) <= 1)
    by (rewrite norm_unit_x; lra).
  split; [exact H|].
  exact (proj1 (proj2 (C1_repulsive_force_contributions (1, 0) [] 1)
                      (0, 0)) H).
Defined.

End ForceFacts.

(** ** Lists as arrays *)

Module ArrayFacts.

Import Np.

Lemma set_nth_length {A} (a : list A) : forall i v,
  length (set_nth a i v) = length a.
Proof.
  induction a as [|x a IH]; intros [|i] v; simpl; auto.
Qed.

Lemma nth_error_set_nth_eq {A} (a : list A) : forall i v,
  (i < length a)%nat -> nth_error (set_nth a i v) i = Some v.
Proof.
  induction a as [|x a IH]; intros [|i] v H; simpl in *; try lia; auto.
  apply IH; lia.
Qed.

Lemma nth_error_set_nth_neq {A} (a : list A) : forall i j v,
  i <> j -> nth_error (set_nth a i v) j = nth_error a j.
Proof.
  induction a as [|x a IH]; intros [|i] [|j] v H; simpl; auto;
    try congruence.
Qed.

Lemma set_nth_split {A} (pre : list A) x post v :
  set_nth (pre ++ x :: post) (length pre) v = pre ++ v :: post.
Proof.
  induction pre as [|y pre IH]; simpl; [reflexivity|]. now rewrite IH.
Qed.

(** A loop over [range(len(a))] that reads [a[j]] is a loop over the
    elements of [a]. *)
Lemma fold_range_nth {A S} (f : S -> A -> S) (d : A) (a : list A) :
  forall (pre : list A) (s : S),
    fold_left (fun st j => f st (nth j (pre ++ a) d))
              (seq (length pre) (length a)) s
    = fold_left f a s.
Proof.
  induction a as [|x a IH]; intros pre s; simpl; [reflexivity|].
  rewrite app_nth2 by lia. rewrite Nat.sub_diag; simpl.
  specialize (IH (pre ++ [x]) (f s x)).
  rewrite <- app_assoc in IH; simpl in IH.
  rewrite length_app in IH; simpl in IH.
  rewrite Nat.add_1_r in IH. exact IH.
Qed.

Lemma fold_range_nth0 {A S} (f : S -> A -> S) (d : A) (a : list A) (s : S) :
  fold_left (fun st j => f st (nth j a d)) (seq 0 (length a)) s
  = fold_left f a s.
Proof. exact (fold_range_nth f d a [] s). Qed.

End ArrayFacts.

(** ** The rotation of a trajectory *)

Module RotationFacts.

Import Np NpFacts Corrector.

(** The matrix product of line 344 moves every step by the same rotation
    of the plane. *)
Lemma rotate_map angle traj :
  rotate angle traj = map (rotate_point angle) traj.
Proof.
  unfold rotate, transpose_2n, transpose_n2, matmul, matmul_row,
    rotation_matrix; simpl.
  induction traj as [|[x y] traj IH]; simpl; [reflexivity|].
  destruct (split traj) as [xs ys]; simpl in *.
  rewrite IH. unfold rotate_point; simpl.
  apply f_equal2; [|reflexivity].
  apply injective_projections; simpl; ring.
Qed.

Lemma rotate_length angle traj : length (rotate angle traj) = length traj.
Proof. rewrite rotate_map. apply length_map. Qed.

Lemma sin_cos_square angle : sin angle * sin angle + cos angle * cos angle = 1.
Proof. generalize (sin2_cos2 angle); unfold Rsqr; tauto. Qed.

(** A rotation keeps the length of a step. *)
Lemma rotate_point_norm angle p : norm (rotate_point angle p) = norm p.
Proof.
  destruct p as [x y]; unfold norm, rotate_point; simpl. f_equal.
  generalize (sin_cos_square angle); intros H.
  transitivity ((sin angle * sin angle + cos angle * cos angle)
                * (x * x + y * y)); [ring|].
  rewrite H; ring.
Qed.

Lemma rotate_point_zero p : rotate_point 0 p = p.
Proof.
  destruct p as [x y]; unfold rotate_point; simpl.
  rewrite cos_0, sin_0. f_equal; ring.
Qed.

Lemma rotate_point_inverse angle p :
  rotate_point (- angle) (rotate_point angle p) = p.
Proof.
  destruct p as [x y]; unfold rotate_point; simpl.
  rewrite cos_neg, sin_neg.
  generalize (sin_cos_square angle); intros H.
  f_equal.
  - transitivity ((sin angle * sin angle + cos angle * cos angle) * x);
      [ring | rewrite H; ring].
  - transitivity ((sin angle * sin angle + cos angle * cos angle) * y);
      [ring | rewrite H; ring].
Qed.

Lemma map_id_ext {A} (f : A -> A) (l : list A) :
  (forall x, f x = x) -> map f l = l.
Proof.
  intros H; induction l as [|x l IH]; simpl; [reflexivity|].
  now rewrite H, IH.
Qed.

Lemma rotate_zero traj : rotate 0 traj = traj.
Proof. rewrite rotate_map. apply map_id_ext, rotate_point_zero. Qed.

Lemma rotate_inverse angle traj : rotate (- angle) (rotate angle traj) = traj.
Proof.
  rewrite !rotate_map, map_map.
  apply map_id_ext. intros p; apply rotate_point_inverse.
Qed.

Lemma quarter_pi_bounds : - PI / 4 <= PI / 4.
Proof. generalize PI_RGT_0; lra. Qed.

Lemma heading_correction_bounds max_force :
  - PI / 4 <= heading_correction max_force <= PI / 4.
Proof. apply clip_bounds, quarter_pi_bounds. Qed.

Lemma heading_correction_zeros : heading_correction zeros = 0.
Proof.
  unfold heading_correction, zeros; simpl.
  rewrite arctan2_origin. apply clip_inside.
  generalize PI_RGT_0; lra.
Qed.

(** C9: the rotation with angle [0] leaves every step of a trajectory as
    it is, and the rotation by [theta] followed by the rotation by
    [- theta] gives the trajectory back (exactly, in real arithmetic). *)
Theorem C9_rotation_identity_and_round_trip :
  forall (traj : trajectory) (theta : R),
    rotate 0 traj = traj
    /\ rotate (- theta) (rotate theta traj) = traj.
Proof.
  intros traj theta; split.
  - apply rotate_zero.
  - apply rotate_inverse.
Qed.

(** C3: the heading correction of any force vector lies in
    [[-PI/4, PI/4]], it is [0] for the zero vector, and the corrected
    trajectory is the input with every step turned by the one angle
    computed for the trajectory, a rotation that keeps the length of
    every step and the number of steps. *)
Theorem C3_bounded_uniform_rotation :
  forall (MAX_V RATE : R) (max_force : vec2)
         (obstacle_points : option (list vec2)) (traj : trajectory),
    - PI / 4 <= heading_correction max_force <= PI / 4
    /\ heading_correction zeros = 0
    /\ (let angle :=
          heading_correction (worst_force MAX_V RATE obstacle_points traj) in
        correct_trajectory MAX_V RATE obstacle_points traj
        = map (rotate_point angle) traj
        /\ (forall p : vec2, norm (rotate_point angle p) = norm p)
        /\ length (correct_trajectory MAX_V RATE obstacle_points traj)
           = length traj).
Proof.
  intros MAX_V RATE max_force obstacle_points traj.
  split; [apply heading_correction_bounds|].
  split; [apply heading_correction_zeros|].
  cbv zeta; unfold correct_trajectory.
  split; [apply rotate_map|].
  split; [intros p; apply rotate_point_norm | apply rotate_length].
Qed.

End RotationFacts.

(** ** The corrector on a batch *)

Module CorrectorFacts.

Import Np NpFacts ArrayFacts Force Corrector.

Section Config.

Variables MAX_V RATE : R.

Lemma step_point_entry pre step post :
  step_point MAX_V RATE (pre ++ step :: post) (length pre)
  = scale (MAX_V / RATE) step.
Proof.
  unfold step_point.
  rewrite app_nth2 by lia. now rewrite Nat.sub_diag.
Qed.

(** The loop over [j] is a loop over the entries of the row. *)
Lemma worst_force_entries obstacle_points traj :
  worst_force MAX_V RATE obstacle_points traj
  = fst (fold_left
           (fun (st : vec2 * R) (step : vec2) =>
              let rep_force :=
                compute_repulsive_force (scale (MAX_V / RATE) step)
                                        obstacle_points 1 in
              if Rgtb (norm rep_force) (snd st)
              then (rep_force, norm rep_force) else st)
           traj (zeros, 0)).
Proof.
  unfold worst_force. f_equal.
  unfold worst_force_step, step_point.
  exact (fold_range_nth0
           (fun (st : vec2 * R) (step : vec2) =>
              if Rgtb (norm (compute_repulsive_force
                               (scale (MAX_V / RATE) step)
                               obstacle_points 1)) (snd st)
              then (compute_repulsive_force
                      (scale (MAX_V / RATE) step) obstacle_points 1,
                    norm (compute_repulsive_force
                            (scale (MAX_V / RATE) step)
                            obstacle_points 1))
              else st)
           zeros traj (zeros, 0)).
Qed.

(** *** The heap *)

Lemma deref_copy_new h a :
  deref (fst (copy h a)) (snd (copy h a)) = Some a.
Proof.
  unfold deref, copy; simpl.
  rewrite nth_error_app2 by lia. now rewrite Nat.sub_diag.
Qed.

Lemma deref_copy_old h a r b :
  deref h r = Some b -> deref (fst (copy h a)) r = Some b.
Proof.
  unfold deref, copy; simpl; intros H.
  rewrite nth_error_app1; [exact H|].
  apply nth_error_Some; congruence.
Qed.

Lemma copy_fresh h a : deref h (snd (copy h a)) = None.
Proof. unfold deref, copy; simpl. apply nth_error_None; lia. Qed.

Lemma store_row_other h u i row r :
  r <> u -> deref (store_row h u i row) r = deref h r.
Proof.
  intros H; unfold store_row.
  destruct (deref h u); [|reflexivity].
  unfold deref. apply nth_error_set_nth_neq; congruence.
Qed.

Lemma store_row_same h u i row a :
  deref h u = Some a ->
  deref (store_row h u i row) u = Some (set_nth a i row).
Proof.
  intros H; unfold store_row. rewrite H.
  unfold deref. apply nth_error_set_nth_eq.
  apply nth_error_Some. unfold deref in H; congruence.
Qed.

Lemma correct_row_other obstacle_points u h i r :
  r <> u ->
  deref (correct_row MAX_V RATE obstacle_points u h i) r = deref h r.
Proof.
  intros H; unfold correct_row.
  destruct (deref h u); [|reflexivity].
  now apply store_row_other.
Qed.

Lemma correct_rows_other obstacle_points u r idxs :
  r <> u ->
  forall h,
    deref (fold_left (correct_row MAX_V RATE obstacle_points u) idxs h) r
    = deref h r.
Proof.
  intros H; induction idxs as [|i idxs IH]; intros h; simpl;
    [reflexivity|].
  rewrite IH. now apply correct_row_other.
Qed.

(** After the turns for the rows of [post], these rows are corrected and
    the rows before them are as they were. *)
Lemma correct_rows_same obstacle_points u post :
  forall pre h,
    deref h u = Some (pre ++ post) ->
    deref (fold_left (correct_row MAX_V RATE obstacle_points u)
                     (seq (length pre) (length post)) h) u
    = Some (pre ++ map (correct_trajectory MAX_V RATE obstacle_points) post).
Proof.
  induction post as [|row post IH]; intros pre h H; simpl; [exact H|].
  specialize (IH (pre ++ [correct_trajectory MAX_V RATE obstacle_points row])
                 (correct_row MAX_V RATE obstacle_points u h (length pre))).
  rewrite length_app, Nat.add_1_r, <- app_assoc in IH; simpl in IH.
  rewrite <- app_assoc in IH; simpl in IH.
  apply IH.
  unfold correct_row. rewrite H.
  rewrite (store_row_same _ _ _ _ _ H).
  rewrite app_nth2 by lia. rewrite Nat.sub_diag; simpl.
  now rewrite set_nth_split.
Qed.

Lemma apply_with_obstacles obstacle_points h trajectories a :
  no_obstacles obstacle_points = false ->
  deref h trajectories = Some a ->
  exists h',
    apply_repulsive_forces_to_trajectories MAX_V RATE obstacle_points h
                                           trajectories
    = Some (h', length h)
    /\ deref h' (length h)
       = Some (map (correct_trajectory MAX_V RATE obstacle_points) a)
    /\ forall r, r <> length h -> deref h' r = deref (h ++ [a]) r.
Proof.
  intros Hobs Ha.
  unfold apply_repulsive_forces_to_trajectories.
  rewrite Hobs, Ha; simpl.
  eexists; split; [reflexivity|]. split.
  - apply (correct_rows_same obstacle_points (length h) a [] (h ++ [a])).
    exact (deref_copy_new h a).
  - intros r Hr. now apply correct_rows_other.
Qed.

(** C2, amended: the force for step [j] of a trajectory is evaluated at
    entry [j] of the trajectory alone, scaled by [MAX_V / RATE]; the
    corrector sums no entries.  The loop over the steps is the loop over
    these scaled entries. *)
Theorem C2_force_evaluated_at_step_entry :
  forall (obstacle_points : option (list vec2))
         (pre : trajectory) (step : vec2) (post : trajectory),
    step_point MAX_V RATE (pre ++ step :: post) (length pre)
    = scale (MAX_V / RATE) step
    /\ worst_force MAX_V RATE obstacle_points (pre ++ step :: post)
       = fst (fold_left
                (fun (st : vec2 * R) (entry : vec2) =>
                   let rep_force :=
                     compute_repulsive_force (scale (MAX_V / RATE) entry)
                                             obstacle_points 1 in
                   if Rgtb (norm rep_force) (snd st)
                   then (rep_force, norm rep_force) else st)
                (pre ++ step :: post) (zeros, 0)).
Proof.
  intros obstacle_points pre step post; split.
  - apply step_point_entry.
  - apply worst_force_entries.
Qed.

(** C6: with no obstacle points ([None] or an empty array) the corrector
    returns its argument itself, on an unchanged heap, whatever the batch;
    the values returned are the values given, and the call has a result. *)
Theorem C6_no_obstacles_pass_through :
  forall (h : heap) (trajectories : ref) (a : batch),
    apply_repulsive_forces_to_trajectories MAX_V RATE None h trajectories
    = Some (h, trajectories)
    /\ apply_repulsive_forces_to_trajectories MAX_V RATE (Some []) h
                                              trajectories
       = Some (h, trajectories)
    /\ corrected_values MAX_V RATE None a = a
    /\ corrected_values MAX_V RATE (Some []) a = a.
Proof.
  intros h trajectories a. repeat split; reflexivity.
Qed.

(** C10: the corrector leaves the array it is given, and every other array
    of the heap, as it was.  With obstacles it returns a new array, not
    allocated before the call, that holds the corrected rows; the values of
    the argument are the same after the call. *)
Theorem C10_input_array_not_mutated :
  forall (obstacle_points : option (list vec2)) (h : heap)
         (trajectories : ref) (a : batch),
    deref h trajectories = Some a ->
    exists (h' : heap) (result : ref),
      apply_repulsive_forces_to_trajectories MAX_V RATE obstacle_points h
                                             trajectories
      = Some (h', result)
      /\ deref h' trajectories = Some a
      /\ (forall r b, deref h r = Some b -> deref h' r = Some b)
      /\ deref h' result = Some (corrected_values MAX_V RATE obstacle_points a)
      /\ (no_obstacles obstacle_points = false ->
          result <> trajectories /\ deref h result = None).
Proof.
  intros obstacle_points h trajectories a Ha.
  destruct (no_obstacles obstacle_points) eqn:Hobs.
  - exists h, trajectories.
    unfold apply_repulsive_forces_to_trajectories, corrected_values.
    rewrite Hobs. repeat split; auto; discriminate.
  - destruct (apply_with_obstacles obstacle_points h trajectories a Hobs Ha)
      as (h' & Happ & Hnew & Hold).
    assert (Hlt : (trajectories < length h)%nat)
      by (apply nth_error_Some; unfold deref in Ha; congruence).
    assert (Hkeep : forall r b, deref h r = Some b -> deref h' r = Some b).
    { intros r b Hr.
      assert (r < length h)%nat
        by (apply nth_error_Some; unfold deref in Hr; congruence).
      rewrite Hold by lia. exact (deref_copy_old h a r b Hr). }
    exists h', (length h). unfold corrected_values; rewrite Hobs.
    repeat split; auto.
    + lia.
    + apply nth_error_None. lia.
Qed.

End Config.

(** C2, as the specification states it, fails: for the two-step trajectory
    [(1, 0), (1, 0)] with [MAX_V / RATE = 1], the force for step [1] is
    evaluated at [(1, 0)], the second entry, while the displacements of
    steps [0..1] sum to [(2, 0)]. *)
Lemma C2_steps_are_not_accumulated :
  step_point 1 1 [(1, 0); (1, 0)] 1 = (1, 0)
  /\ accumulated_position 1 1 [(1, 0); (1, 0)] 1 = (2, 0)
  /\ step_point 1 1 [(1, 0); (1, 0)] 1
     <> accumulated_position 1 1 [(1, 0); (1, 0)] 1.
Proof.
  assert (H1 : step_point 1 1 [(1, 0); (1, 0)] 1 = (1, 0))
    by (unfold step_point, scale; simpl;
        apply injective_projections; simpl; field).
  assert (H2 : accumulated_position 1 1 [(1, 0); (1, 0)] 1 = (2, 0))
    by (unfold accumulated_position, scale, add, zeros; simpl;
        apply injective_projections; simpl; field).
  repeat split; auto.
  rewrite H1, H2. intros H; injection H; intros; lra.
Qed.

Lemma C10_input_array_not_mutated_witness :
  deref [[[(1, 0)]]] 0%nat = Some [[(1, 0)]]
  /\ exists (h' : heap) (result : ref),
      apply_repulsive_forces_to_trajectories 1 1 (Some [(2, 0)])
                                             [[[(1, 0)]]] 0%nat
      = Some (h', result)
      /\ deref h' 0%nat = Some [[(1, 0)]]
      /\ (forall r b, deref [[[(1, 0)]]] r = Some b -> deref h' r = Some b)
      /\ deref h' result
         = Some (corrected_values 1 1 (Some [(2, 0)]) [[(1, 0)]])
      /\ (no_obstacles (Some [(2, 0)]) = false ->
          result <> 0%nat /\ deref [[[(1, 0)]]] result = None).
Proof.
  split; [reflexivity|].
  exact (C10_input_array_not_mutated 1 1 (Some [(2, 0)]) [[[(1, 0)]]] 0%nat
                                     [[(1, 0)]] eq_refl).
Defined.

End CorrectorFacts.

(** ** The context window *)

Module DequeFacts.

Import Deque.

(** The last [c] elements of a list, in order. *)
Lemma append_keeps_last {A} (c : nat) (l : list A) (x : A) :
  items (append (mk c (skipn (length l - c) l)) x)
  = skipn (length (l ++ [x]) - c) (l ++ [x]).
Proof.
  unfold append; simpl.
  rewrite !length_app, length_skipn; simpl.
  destruct (Nat.ltb_spec c (length l - (length l - c) + 1)) as [H|H]; simpl.
  - (* the window was full: the oldest frame goes *)
    assert (Hc : (c <= length l)%nat) by lia.
    replace (length l + 1 - c)%nat with (1 + (length l - c))%nat by lia.
    rewrite <- skipn_skipn. simpl.
    rewrite skipn_app.
    replace (length l - c - length l)%nat with 0%nat by lia. simpl.
    destruct (skipn (length l - c) l) eqn:E; simpl.
    + assert (length (skipn (length l - c) l) = 0%nat) by now rewrite E.
      rewrite length_skipn in H0.
      assert (c = 0)%nat by lia. subst c. reflexivity.
    + reflexivity.
  - (* there was room *)
    replace (length l - c)%nat with 0%nat by lia.
    replace (length l + 1 - c)%nat with 0%nat by lia.
    reflexivity.
Qed.

Lemma append_maxlen {A} (d : deque A) (x : A) :
  maxlen (append d x) = maxlen d.
Proof. unfold append. destruct (_ <? _)%nat; reflexivity. Qed.

(** The contents after the pushes [frames] into an empty window. *)
Lemma pushes_keep_last {A} (c : nat) (frames : list A) :
  fold_left append frames (empty c)
  = mk c (skipn (length frames - c) frames).
Proof.
  induction frames as [|x frames IH] using rev_ind; [reflexivity|].
  rewrite fold_left_app; simpl. rewrite IH.
  generalize (append_keeps_last c frames x).
  generalize (append_maxlen (mk c (skipn (length frames - c) frames)) x).
  destruct (append _ x) as [m it]; simpl. intros -> ->. reflexivity.
Qed.

(** A push never takes a window over its capacity. *)
Lemma append_bounded {A} (d : deque A) (x : A) :
  (len d <= maxlen d)%nat -> (len (append d x) <= maxlen (append d x))%nat.
Proof.
  unfold len, append; intros H.
  rewrite length_app; simpl.
  destruct (Nat.ltb_spec (maxlen d) (length (items d) + 1)) as [H1|H1]; simpl.
  - destruct (items d); simpl in *; [lia|].
    rewrite length_app; simpl. lia.
  - rewrite length_app; simpl. lia.
Qed.

(** C4: with capacity [c = context_size + 1], the window never holds more
    than [c] frames, whatever was pushed; after more than [c] pushes it
    holds exactly [c] frames, the last [c] pushed, oldest first. *)
Theorem C4_context_window_keeps_last_frames :
  forall (A : Type) (context_size : nat) (frames : list A),
    let c := (context_size + 1)%nat in
    let q := fold_left append frames (empty c) in
    (len q <= c)%nat
    /\ ((c < length frames)%nat ->
        len q = c /\ to_list q = skipn (length frames - c) frames).
Proof.
  intros A context_size frames c q.
  unfold q. rewrite pushes_keep_last. unfold len, to_list; simpl.
  rewrite length_skipn. split; [lia|].
  intros H; split; [lia|reflexivity].
Qed.

Lemma C4_context_window_keeps_last_frames_witness :
  (1 + 1 < length [10; 20; 30; 40])%nat
  /\ len (fold_left append [10; 20; 30; 40] (empty (1 + 1)))%nat = 2%nat
  /\ to_list (fold_left append [10; 20; 30; 40] (empty (1 + 1)))%nat
     = [30; 40]%nat.
Proof.
  assert (H : (1 + 1 < length [10; 20; 30; 40])%nat) by (simpl; lia).
  split; [exact H|].
  exact (proj2 (C4_context_window_keeps_last_frames
                  nat 1%nat [10; 20; 30; 40]%nat) H).
Defined.

End DequeFacts.

(** ** The timer callback *)

Module NodeFacts.

Import Np Deque Corrector Projector Node.

Section Node.

Variable frame : Type.
Variable infer_points : frame -> list point3.
Variable seed : Type.
Variable sample : seed -> list frame -> batch.
Variables MAX_V RATE : R.

(** With enough context the tick does run the sampler: the guard of the
    callback is the only way to the empty tick. *)
Lemma timer_cb_apf_runs (n : node frame) (s : seed) :
  (context_size n < len (context_queue n))%nat ->
  In SamplerRun (snd (timer_cb_apf sample MAX_V RATE n s)).
Proof.
  intros H; unfold timer_cb_apf.
  destruct (Nat.leb_spec (len (context_queue n)) (context_size n)); [lia|].
  destruct (apply_repulsive_forces_to_trajectories _ _ _ _ _)
    as [[h r]|]; [|simpl; auto].
  destruct (deref h r); simpl; auto.
Qed.

Lemma timer_cb_runs (n : node frame) (s : seed) :
  (context_size n < len (context_queue n))%nat ->
  In SamplerRun (snd (timer_cb sample MAX_V RATE n s)).
Proof.
  intros H; unfold timer_cb.
  destruct (Nat.leb_spec (len (context_queue n)) (context_size n)); [lia|].
  simpl; auto.
Qed.

(** The tick of the node with the corrector, by values: the batch that is
    published is the sampled batch corrected; the heap of the callback never
    fails. *)
Lemma timer_cb_apf_values (n : node frame) (s : seed) :
  (context_size n < len (context_queue n))%nat ->
  let traj_batch := sample s (to_list (context_queue n)) in
  let msgs :=
    publish_action_msgs_apf
      n (corrected_values MAX_V RATE (obstacle_points n) traj_batch) in
  timer_cb_apf sample MAX_V RATE n s
  = (n, SamplerRun :: msgs
          ++ (if raised msgs then []
              else [VizImage (negb (no_obstacles (obstacle_points n)))])).
Proof.
  intros H traj_batch msgs. unfold timer_cb_apf.
  destruct (Nat.leb_spec (len (context_queue n)) (context_size n)); [lia|].
  fold traj_batch. unfold msgs, corrected_values.
  destruct (no_obstacles (obstacle_points n)) eqn:Hobs.
  - unfold apply_repulsive_forces_to_trajectories. rewrite Hobs.
    reflexivity.
  - destruct (CorrectorFacts.apply_with_obstacles
                MAX_V RATE (obstacle_points n) [traj_batch] O traj_batch
                Hobs eq_refl) as (h' & Happ & Hnew & _).
    simpl length in Happ, Hnew. rewrite Happ, Hnew. reflexivity.
Qed.

(** An image callback pushes at most one frame and keeps the capacity. *)
Lemma image_cb_apf_queue (n : node frame) (now : Z) (msg : frame) :
  let q' := context_queue (fst (image_cb_apf infer_points n now msg)) in
  q' = context_queue n \/ q' = append (context_queue n) msg.
Proof.
  unfold image_cb_apf. destruct (_ <? _)%Z; simpl; auto.
Qed.

Lemma image_cb_apf_bounded (n : node frame) (now : Z) (msg : frame) :
  (len (context_queue n) <= maxlen (context_queue n))%nat ->
  let q' := context_queue (fst (image_cb_apf infer_points n now msg)) in
  (len q' <= maxlen q')%nat.
Proof.
  intros H q'. destruct (image_cb_apf_queue n now msg) as [E|E];
    fold q' in E; rewrite E; [exact H|].
  now apply DequeFacts.append_bounded.
Qed.

Lemma image_cb_bounded (n : node frame) (msg : frame) :
  (len (context_queue n) <= maxlen (context_queue n))%nat ->
  let q' := context_queue (fst (image_cb n msg)) in
  (len q' <= maxlen q')%nat.
Proof. intros H; simpl. now apply DequeFacts.append_bounded. Qed.

(** C8: while the context buffer holds at most [context_size] frames, the
    timer callback of either node returns at once: the node is as before,
    the sampler has not run and nothing is published (no waypoint, no
    sampled actions, no image), and no error is raised. *)
Theorem C8_tick_without_context_is_a_no_op :
  forall (n : node frame) (s : seed),
    (len (context_queue n) <= context_size n)%nat ->
    timer_cb_apf sample MAX_V RATE n s = (n, [])
    /\ timer_cb sample MAX_V RATE n s = (n, []).
Proof.
  intros n s H. unfold timer_cb_apf, timer_cb.
  destruct (Nat.leb_spec (len (context_queue n)) (context_size n));
    [split; reflexivity | lia].
Qed.

End Node.

Lemma C8_tick_without_context_is_a_no_op_witness :
  let n : node nat := init turtlebot4 2 false 3 0 in
  (len (context_queue n) <= context_size n)%nat
  /\ timer_cb_apf (fun (_ : unit) (_ : list nat) => [[(1, 0)]]) 1 4 n tt
     = (n, [])
  /\ timer_cb (fun (_ : unit) (_ : list nat) => [[(1, 0)]]) 1 4 n tt
     = (n, []).
Proof.
  intros n.
  assert (H : (len (context_queue n) <= context_size n)%nat)
    by (unfold n, init, len, empty; simpl; lia).
  split; [exact H|].
  exact (C8_tick_without_context_is_a_no_op
           nat unit (fun _ _ => [[(1, 0)]]) 1 4 n tt H).
Defined.

End NodeFacts.

(** ** The depth projector *)

Module ProjectorFacts.

Import Np NpFacts Projector.

(** *** [np.where] and [np.argmin] *)

Lemma where_from_In {A} (mask : A -> bool) (d : A) (a : list A) :
  forall i k,
    In k (where_from mask i a)
    <-> (i <= k < i + length a)%nat /\ mask (nth (k - i) a d) = true.
Proof.
  induction a as [|x a IH]; intros i k; simpl.
  - split; [tauto | intros [H _]; lia].
  - assert (Hrec : In k (where_from mask (S i) a)
                   <-> (i < k < i + S (length a))%nat
                       /\ mask (nth (k - i) (x :: a) d) = true).
    { rewrite IH. split.
      - intros [H1 H2]. split; [lia|].
        replace (k - i)%nat with (S (k - S i)) by lia. exact H2.
      - intros [H1 H2]. split; [lia|].
        replace (k - i)%nat with (S (k - S i)) in H2 by lia. exact H2. }
    destruct (mask x) eqn:Hx; simpl.
    + rewrite Hrec. split.
      * intros [<- | [H1 H2]].
        -- split; [lia|]. now rewrite Nat.sub_diag.
        -- split; [lia | exact H2].
      * intros [H1 H2]. destruct (Nat.eq_dec i k) as [->|Hne]; [now left|].
        right. split; [lia | exact H2].
    + rewrite Hrec. split.
      * intros [H1 H2]. split; [lia | exact H2].
      * intros [H1 H2]. destruct (Nat.eq_dec i k) as [->|Hne].
        -- rewrite Nat.sub_diag in H2; simpl in H2. congruence.
        -- split; [lia | exact H2].
Qed.

Lemma where_In {A} (mask : A -> bool) (d : A) (a : list A) (k : nat) :
  In k (where_ mask a) <-> (k < length a)%nat /\ mask (nth k a d) = true.
Proof.
  unfold where_. rewrite (where_from_In mask d a 0 k).
  rewrite Nat.sub_0_r. split; intros [H1 H2]; split; auto; lia.
Qed.

Lemma argmin_from_spec (a : list R) :
  forall i best_i best,
    let r := argmin_from i best_i best a in
    (r = best_i /\ Forall (fun x => best <= x) a)
    \/ ((i <= r < i + length a)%nat
        /\ nth (r - i) a 0 < best
        /\ Forall (fun x => nth (r - i) a 0 <= x) a).
Proof.
  induction a as [|x a IH]; intros i best_i best; simpl.
  - left; split; [reflexivity | constructor].
  - destruct (Rltb x best) eqn:Hx.
    + apply Rltb_true in Hx.
      destruct (IH (S i) i x) as [[Hr Hall] | (Hr & Hlt & Hall)].
      * right. rewrite Hr, Nat.sub_diag; simpl.
        split; [lia|]. split; [exact Hx|].
        constructor; [lra | exact Hall].
      * right.
        replace (argmin_from (S i) i x a - i)%nat
          with (S (argmin_from (S i) i x a - S i)) by lia.
        split; [lia|]. split; [lra|].
        constructor; [lra | exact Hall].
    + apply Rltb_false in Hx.
      destruct (IH (S i) best_i best) as [[Hr Hall] | (Hr & Hlt & Hall)].
      * left. split; [exact Hr|]. constructor; [exact Hx | exact Hall].
      * right.
        replace (argmin_from (S i) best_i best a - i)%nat
          with (S (argmin_from (S i) best_i best a - S i)) by lia.
        split; [lia|]. split; [exact Hlt|].
        constructor; [lra | exact Hall].
Qed.

(** [np.argmin] of a non-empty array is an index of the array, at a least
    element. *)
Lemma argmin_spec (a : list R) :
  a <> [] ->
  (argmin a < length a)%nat
  /\ Forall (fun x => nth (argmin a) a 0 <= x) a.
Proof.
  destruct a as [|x a]; [congruence|]. intros _. simpl.
  destruct (argmin_from_spec a 1 0 x) as [[Hr Hall] | (Hr & Hlt & Hall)].
  - rewrite Hr. split; [lia|]. constructor; [lra | exact Hall].
  - destruct (argmin_from 1 0 x a) as [|r]; [lia|].
    simpl in *. rewrite Nat.sub_0_r in *.
    split; [lia|]. constructor; [lra | exact Hall].
Qed.

(** *** [np.int32] *)

Lemma int32_nonneg (r : R) : (0 <= int32 r)%Z <-> -1 < r.
Proof.
  unfold int32. destruct (Rleb 0 r) eqn:E.
  - apply Rleb_true in E.
    destruct (base_Int_part r) as [H1 H2].
    split; [intros _; lra|]. intros _.
    apply Z.lt_succ_r, lt_IZR. rewrite succ_IZR. lra.
  - apply Rleb_false in E.
    destruct (base_Int_part (- r)) as [H1 H2].
    split.
    + intros H.
      assert (H3 : (Int_part (- r) <= 0)%Z) by lia.
      apply IZR_le in H3. lra.
    + intros H.
      assert (H3 : (Int_part (- r) < 1)%Z) by (apply lt_IZR; lra).
      lia.
Qed.

Lemma int32_below (r : R) (b : Z) :
  (0 < b)%Z -> r < IZR b -> (int32 r < b)%Z.
Proof.
  intros Hb Hr. unfold int32. destruct (Rleb 0 r) eqn:E.
  - destruct (base_Int_part r) as [H1 H2]. apply lt_IZR. lra.
  - apply Rleb_false in E.
    destruct (base_Int_part (- r)) as [H1 H2].
    assert (H3 : (-1 < Int_part (- r))%Z) by (apply lt_IZR; lra).
    lia.
Qed.

(** *** [range] *)

Lemma range_from_lower (n : nat) :
  forall start step x,
    (0 < step)%Z -> In x (range_from n start step) -> (start <= x)%Z.
Proof.
  induction n as [|n IH]; intros start step x Hs; simpl; [tauto|].
  intros [<- | H]; [lia|]. apply IH in H; lia.
Qed.

Lemma range_from_NoDup (n : nat) :
  forall start step, (0 < step)%Z -> NoDup (range_from n start step).
Proof.
  induction n as [|n IH]; intros start step Hs; simpl; constructor.
  - intros H. apply range_from_lower in H; lia.
  - now apply IH.
Qed.

Lemma range_from_bounds (n : nat) :
  forall start step x,
    (0 < step)%Z -> In x (range_from n start step) ->
    (start <= x < start + Z.of_nat n * step)%Z.
Proof.
  induction n as [|n IH]; intros start step x Hs; [simpl; tauto|].
  rewrite Nat2Z.inj_succ. cbn [range_from In].
  intros [<- | H]; [nia|]. apply IH in H; nia.
Qed.

Lemma columns_NoDup :
  NoDup (range 0 (fst top_view_size) top_view_sampling_step).
Proof. apply range_from_NoDup. reflexivity. Qed.

Lemma columns_bounds (x : Z) :
  In x (range 0 (fst top_view_size) top_view_sampling_step) ->
  (0 <= x < fst top_view_size)%Z.
Proof.
  intros H. unfold range in H.
  apply range_from_bounds in H; [|reflexivity].
  assert (E : Z.to_nat ((fst top_view_size - 0 + top_view_sampling_step - 1)
                        / top_view_sampling_step) = 80%nat) by reflexivity.
  rewrite E in H. unfold top_view_sampling_step in H.
  unfold top_view_size; simpl fst. lia.
Qed.

(** *** One turn of the loop over the columns *)

Lemma occupied_true (cells : list cell) (x : Z) :
  occupied cells x = true <-> exists c, In c cells /\ img_x c = x.
Proof.
  unfold occupied. rewrite existsb_exists.
  split; intros (c & H1 & H2); exists c; split; auto.
  - now apply Z.eqb_eq.
  - now apply Z.eqb_eq.
Qed.

Lemma column_index (cells : list cell) (x : Z) (c : cell) :
  In c cells -> img_x c = x ->
  exists k, In k (where_ (fun c => (img_x c =? x)%Z) cells)
            /\ nth k cells no_cell = c.
Proof.
  intros Hin Hx. destruct (In_nth _ _ no_cell Hin) as (k & Hk & Hnth).
  exists k. split; [|exact Hnth].
  apply (where_In _ no_cell). split; [exact Hk|].
  rewrite Hnth. now apply Z.eqb_eq.
Qed.

Lemma sample_column_spec (cells : list cell) (acc : list vec2) (x : Z) :
  (occupied cells x = false /\ sample_column cells acc x = acc)
  \/ (occupied cells x = true
      /\ exists c, nearest_in_column cells x c
                   /\ sample_column cells acc x
                      = acc ++ [(real_x c, real_z c)]).
Proof.
  unfold sample_column.
  set (col_idxs := where_ (fun c => (img_x c =? x)%Z) cells).
  set (f := fun i : nat => depth_val (nth i cells no_cell)).
  destruct (Nat.ltb_spec 0 (length col_idxs)) as [Hlen|Hlen].
  - right.
    assert (Hne : map f col_idxs <> [])
      by (destruct col_idxs; simpl in *; [lia | discriminate]).
    destruct (argmin_spec _ Hne) as [Ham Hmin].
    rewrite length_map in Ham.
    set (am := argmin (map f col_idxs)) in *.
    assert (Hin : In (nth am col_idxs O) col_idxs) by now apply nth_In.
    set (closest_idx := nth am col_idxs O) in *.
    apply (where_In _ no_cell) in Hin. destruct Hin as [Hk Hx].
    apply Z.eqb_eq in Hx.
    assert (Hdepth : nth am (map f col_idxs) 0
                     = depth_val (nth closest_idx cells no_cell)).
    { rewrite (nth_indep _ 0 (f O)) by now rewrite length_map.
      now rewrite map_nth. }
    assert (Hnear : nearest_in_column cells x (nth closest_idx cells no_cell)).
    { split; [now apply nth_In|]. split; [exact Hx|].
      intros c' Hc' Hx'.
      destruct (column_index cells x c' Hc' Hx') as (k & Hk' & Hnth).
      rewrite Forall_forall in Hmin.
      specialize (Hmin (f k) (in_map f _ _ Hk')).
      rewrite Hdepth in Hmin. unfold f in Hmin. now rewrite Hnth in Hmin. }
    split.
    + apply occupied_true. exists (nth closest_idx cells no_cell).
      destruct Hnear as (H1 & H2 & _). now split.
    + exists (nth closest_idx cells no_cell). split; [exact Hnear|reflexivity].
  - left. split; [|reflexivity].
    destruct (occupied cells x) eqn:E; [|reflexivity].
    apply occupied_true in E. destruct E as (c & Hc & Hx).
    destruct (column_index cells x c Hc Hx) as (k & Hk & _).
    fold col_idxs in Hk. destruct col_idxs; simpl in *; [tauto | lia].
Qed.

(** The loop over the columns appends, for every occupied column and in the
    order of the columns, one nearest cell of that column. *)
Lemma sample_columns_spec (cells : list cell) (xs : list Z) :
  forall acc,
    exists picks : list cell,
      fold_left (sample_column cells) xs acc
      = acc ++ map (fun c => (real_x c, real_z c)) picks
      /\ map img_x picks = filter (occupied cells) xs
      /\ Forall (fun c => nearest_in_column cells (img_x c) c) picks.
Proof.
  induction xs as [|x xs IH]; intros acc; simpl.
  - exists []. simpl. rewrite app_nil_r. repeat split; constructor.
  - destruct (sample_column_spec cells acc x)
      as [[Hocc Hstep] | (Hocc & c & Hnear & Hstep)];
      rewrite Hstep, Hocc.
    + apply IH.
    + destruct (IH (acc ++ [(real_x c, real_z c)]))
        as (picks & Hfold & Hcols & Hall).
      exists (c :: picks). simpl.
      assert (Hx : img_x c = x) by (destruct Hnear as (_ & H & _); exact H).
      rewrite Hfold, <- app_assoc, Hcols, Hx. repeat split.
      constructor; [now rewrite Hx | exact Hall].
Qed.

(** *** The obstacle set *)

Lemma obstacle_list_of_sampled (sampled : list vec2) :
  obstacle_list (to_obstacle_points sampled)
  = map (fun o : vec2 => (snd o, - fst o)) sampled.
Proof. destruct sampled; reflexivity. Qed.

(** The obstacle set is made of one nearest cell for every occupied sampled
    column, in the order of the columns. *)
Lemma obstacles_from_cells (margin resolution : R) (points : list point3) :
  let cells := valid_cells margin resolution points in
  exists picks : list cell,
    obstacle_list (update_top_view_and_obstacles margin resolution points)
    = map obstacle_of picks
    /\ map img_x picks
       = filter (occupied cells)
                (range 0 (fst top_view_size) top_view_sampling_step)
    /\ Forall (fun c => nearest_in_column cells (img_x c) c) picks.
Proof.
  intros cells.
  destruct (sample_columns_spec
              cells (range 0 (fst top_view_size) top_view_sampling_step) [])
    as (picks & Hfold & Hcols & Hall).
  exists picks. split; [|split; assumption].
  unfold update_top_view_and_obstacles, sampled_obstacles.
  fold cells. rewrite Hfold; simpl.
  rewrite obstacle_list_of_sampled, map_map. reflexivity.
Qed.

Lemma valid_cells_In (margin resolution : R) (points : list point3) (c : cell) :
  In c (valid_cells margin resolution points)
  <-> exists p, In p points /\ c = rasterize margin resolution p
                /\ valid c = true.
Proof.
  unfold valid_cells. rewrite filter_In, in_map_iff. split.
  - intros [(p & <- & Hp) Hv]. exists p. auto.
  - intros (p & Hp & -> & Hv). split; [exists p; auto | exact Hv].
Qed.

Lemma column_of_rasterized (margin resolution : R) (p : point3) :
  column_of resolution (obstacle_of (rasterize margin resolution p))
  = img_x (rasterize margin resolution p).
Proof.
  unfold column_of, obstacle_of, rasterize; simpl.
  now rewrite Ropp_involutive.
Qed.

Lemma shift_depth_floor (margin Z_0 : R) : 1e-3 <= shift_depth margin Z_0.
Proof. unfold shift_depth, maximum. apply Rmax_r. Qed.

(** A point that falls in a column of the grid and is not valid is too far
    for the grid, farther than every valid cell. *)
Lemma invalid_is_farther (margin resolution : R) (p q : point3) :
  0 < resolution ->
  valid (rasterize margin resolution q) = true ->
  valid (rasterize margin resolution p) = false ->
  (0 <= img_x (rasterize margin resolution p) < fst top_view_size)%Z ->
  depth_val (rasterize margin resolution q)
  <= depth_val (rasterize margin resolution p).
Proof.
  intros Hres Hq Hp Hx. unfold valid in Hq, Hp.
  apply andb_true_iff in Hq. destruct Hq as [Hq _].
  apply andb_true_iff in Hq. destruct Hq as [_ Hq].
  apply Z.leb_le, int32_nonneg in Hq.
  destruct Hx as [Hx1 Hx2].
  apply Z.leb_le in Hx1. apply Z.ltb_lt in Hx2.
  rewrite Hx1, Hx2 in Hp. cbn [andb] in Hp.
  generalize (shift_depth_floor margin (pZ p)); intros Hfloor.
  assert (Hlt : (img_y (rasterize margin resolution p)
                 < snd top_view_size)%Z).
  { simpl. apply int32_below; [reflexivity|]. simpl. nra. }
  apply Z.ltb_lt in Hlt. rewrite Hlt, andb_true_r in Hp.
  apply Z.leb_gt in Hp.
  assert (Hneg : ~ -1 < IZR (snd top_view_size)
                      - shift_depth margin (pZ p) * resolution).
  { intros H. apply int32_nonneg in H. simpl in Hp, H. lia. }
  simpl in Hq, Hneg |- *.
  apply Rlt_le, (Rmult_lt_reg_r resolution); [exact Hres | lra].
Qed.

Lemma int32_floor (z : Z) (r : R) :
  (0 <= z)%Z -> IZR z <= r < IZR z + 1 -> int32 r = z.
Proof.
  intros Hz Hr. unfold int32.
  assert (H0 : 0 <= r) by (apply IZR_le in Hz; lra).
  apply Rleb_true in H0. rewrite H0.
  symmetry. apply Int_part_spec. lra.
Qed.

(** *** A cloud of three points

    Two points straight ahead at 0.5 m and 0.3 m and one point 0.1 m to the
    side at 0.2 m, for the locobot (margin 0.05 m, 400 pixels per metre):
    the two points ahead share column 200 and the nearer one is kept. *)

Lemma rasterize_example (X Z_0 Z1 : R) (x y : Z) :
  shift_depth 0.05 Z_0 = Z1 ->
  (0 <= x)%Z -> IZR x <= 200 + X * 400 < IZR x + 1 ->
  (0 <= y)%Z -> IZR y <= 400 - Z1 * 400 < IZR y + 1 ->
  rasterize 0.05 400 (mkPoint X 0 Z_0) = mkCell x y Z1 X Z1.
Proof.
  intros HZ Hx0 Hx Hy0 Hy. unfold rasterize; simpl pX; simpl pZ.
  rewrite HZ.
  change (fst top_view_size / 2)%Z with 200%Z.
  change (snd top_view_size) with 400%Z.
  rewrite (int32_floor x) by assumption.
  rewrite (int32_floor y) by assumption.
  reflexivity.
Qed.

Lemma shift_depth_example (Z_0 Z1 : R) :
  1e-3 <= Z1 -> Z_0 - 0.05 = Z1 -> shift_depth 0.05 Z_0 = Z1.
Proof.
  intros H1 H2. unfold shift_depth, maximum. rewrite H2.
  now apply Rmax_left.
Qed.

Lemma sampled_obstacles_example (d1 d2 d3 x1 x2 x3 : R) :
  d2 < d1 ->
  sampled_obstacles [mkCell 200 220 d1 x1 d1; mkCell 200 300 d2 x2 d2;
                     mkCell 240 340 d3 x3 d3]
  = [(x2, d2); (x3, d3)].
Proof.
  intros H. apply Rltb_true in H.
  unfold sampled_obstacles. cbv -[Rltb].
  rewrite H. reflexivity.
Qed.

Lemma projector_example :
  update_top_view_and_obstacles
    0.05 400 [mkPoint 0 0 0.5; mkPoint 0 0 0.3; mkPoint 0.1 0 0.2]
  = Some [(0.25, - 0); (0.15, - 0.1)].
Proof.
  unfold update_top_view_and_obstacles, valid_cells. cbn [map].
  rewrite (rasterize_example 0 0.5 0.45 200 220);
    [| apply shift_depth_example; lra | lia | lra | lia | lra ].
  rewrite (rasterize_example 0 0.3 0.25 200 300);
    [| apply shift_depth_example; lra | lia | lra | lia | lra ].
  rewrite (rasterize_example 0.1 0.2 0.15 240 340);
    [| apply shift_depth_example; lra | lia | lra | lia | lra ].
  change (filter valid
            [mkCell 200 220 0.45 0 0.45; mkCell 200 300 0.25 0 0.25;
             mkCell 240 340 0.15 0.1 0.15])
    with [mkCell 200 220 0.45 0 0.45; mkCell 200 300 0.25 0 0.25;
          mkCell 240 340 0.15 0.1 0.15].
  rewrite sampled_obstacles_example by lra.
  unfold to_obstacle_points; cbn [map fst snd].
  apply f_equal. apply f_equal2; [reflexivity|].
  apply f_equal2; [|reflexivity].
  apply f_equal2; [reflexivity | lra].
Qed.


(** C5: the obstacle set holds at most one point per sampled column (the
    columns [0, 5, 10, ...] of the grid), every point of it comes from a
    valid cell of its column, and its forward distance is least among the
    cells of that column; for a positive resolution it is least among all
    points of the cloud that rasterize into that column. *)
Theorem C5_one_nearest_obstacle_per_column :
  forall (margin resolution : R) (points : list point3),
    let columns := range 0 (fst top_view_size) top_view_sampling_step in
    let cells := valid_cells margin resolution points in
    let obst :=
      obstacle_list
        (update_top_view_and_obstacles margin resolution points) in
    NoDup (map (column_of resolution) obst)
    /\ (length obst <= length columns)%nat
    /\ Forall
         (fun o =>
            In (column_of resolution o) columns
            /\ (exists c, In c cells /\ o = obstacle_of c
                          /\ img_x c = column_of resolution o)
            /\ (forall c, In c cells -> img_x c = column_of resolution o ->
                          forward_of o <= depth_val c)
            /\ (0 < resolution ->
                forall p, In p points ->
                          img_x (rasterize margin resolution p)
                          = column_of resolution o ->
                          forward_of o
                          <= depth_val (rasterize margin resolution p)))
         obst.
Proof.
  intros margin resolution points columns cells obst.
  destruct (obstacles_from_cells margin resolution points)
    as (picks & Hobst & Hcols & Hall).
  fold cells columns in Hcols, Hall. fold obst in Hobst.
  assert (Hcol : forall c, In c picks ->
                           column_of resolution (obstacle_of c) = img_x c).
  { intros c Hc. rewrite Forall_forall in Hall.
    destruct (Hall c Hc) as (Hin & _).
    apply valid_cells_In in Hin. destruct Hin as (p & _ & -> & _).
    apply column_of_rasterized. }
  assert (Hmap : map (column_of resolution) obst
                 = filter (occupied cells) columns).
  { rewrite Hobst, map_map, <- Hcols. now apply map_ext_in. }
  split; [rewrite Hmap; apply NoDup_filter, columns_NoDup|].
  split.
  { rewrite <- (length_map (column_of resolution) obst), Hmap.
    apply filter_length_le. }
  rewrite Hobst. apply Forall_forall. intros o Ho.
  apply in_map_iff in Ho. destruct Ho as (c & <- & Hc).
  rewrite Forall_forall in Hall.
  destruct (Hall c Hc) as (Hin & _ & Hmin).
  rewrite (Hcol c Hc).
  assert (Hsampled : In (img_x c) columns).
  { assert (H : In (img_x c) (map img_x picks)) by now apply in_map.
    rewrite Hcols in H. apply filter_In in H. exact (proj1 H). }
  assert (Hfwd : forward_of (obstacle_of c) = depth_val c).
  { apply valid_cells_In in Hin. destruct Hin as (q & _ & -> & _).
    reflexivity. }
  rewrite Hfwd.
  split; [exact Hsampled|].
  split; [exists c; auto|].
  split; [exact Hmin|].
  intros Hres p Hp Hx.
  destruct (valid (rasterize margin resolution p)) eqn:Hv.
  - apply Hmin; [|exact Hx].
    apply valid_cells_In. exists p. auto.
  - apply valid_cells_In in Hin. destruct Hin as (q & _ & -> & Hq).
    apply (invalid_is_farther margin resolution p q Hres Hq Hv).
    rewrite Hx. apply columns_bounds. exact Hsampled.
Qed.

Lemma C5_one_nearest_obstacle_per_column_witness :
  0 < 400
  /\ In (0.25, - 0)
        (obstacle_list
           (update_top_view_and_obstacles
              0.05 400
              [mkPoint 0 0 0.5; mkPoint 0 0 0.3; mkPoint 0.1 0 0.2]))
  /\ forward_of (0.25, - 0)
     <= depth_val (rasterize 0.05 400 (mkPoint 0 0 0.5)).
Proof.
  assert (Hres : 0 < 400) by lra.
  split; [exact Hres|].
  split; [rewrite projector_example; left; reflexivity|].
  generalize
    (proj2 (proj2 (C5_one_nearest_obstacle_per_column
                     0.05 400
                     [mkPoint 0 0 0.5; mkPoint 0 0 0.3;
                      mkPoint 0.1 0 0.2]))).
  rewrite projector_example. simpl obstacle_list. intros Hall.
  apply Forall_inv in Hall. destruct Hall as (_ & _ & _ & Hmin).
  apply (Hmin Hres); [left; reflexivity|].
  rewrite (rasterize_example 0 0.5 0.45 200 220);
    [| apply shift_depth_example; lra | lia | lra | lia | lra ].
  unfold column_of; cbn [snd img_x].
  change (fst top_view_size / 2)%Z with 200%Z.
  symmetry. apply int32_floor; [lia | lra].
Defined.

End ProjectorFacts.

(** ** A run of the corrector

    One obstacle half a metre ahead, [(0.5, 0)], and a trajectory of one
    step [(0.3, 0)], with [MAX_V / RATE = 1]: the obstacle is 0.2 away, the
    force points backwards and the heading correction is the upper bound of
    the clip. *)

Module Scenario.

Import Np NpFacts Force ForceFacts Corrector.

Lemma norm_eq (v : vec2) (d : R) :
  0 <= d -> fst v * fst v + snd v * snd v = d * d -> norm v = d.
Proof. intros Hd H. unfold norm. rewrite H. now apply sqrt_square. Qed.

Lemma scenario_force :
  compute_repulsive_force (step_point 1 1 [(0.3, 0)] 0) (Some [(0.5, 0)]) 1
  = (-125, 0).
Proof.
  assert (Hn : norm (sub (step_point 1 1 [(0.3, 0)] 0) (0.5, 0)) = 0.2).
  { apply norm_eq; [lra|].
    unfold step_point, sub, scale; cbn [nth fst snd]. lra. }
  unfold compute_repulsive_force; simpl fold_left.
  rewrite repulsion_step_add, add_zeros_l.
  rewrite contribution_in_range by (rewrite Hn; lra).
  rewrite Hn. unfold step_point, sub, scale, vdiv; cbn [nth fst snd].
  apply injective_projections; cbn [fst snd]; lra.
Qed.

Lemma scenario_worst_force :
  worst_force 1 1 (Some [(0.5, 0)]) [(0.3, 0)] = (-125, 0).
Proof.
  unfold worst_force; simpl fold_left. unfold worst_force_step.
  rewrite scenario_force.
  assert (Hn : norm (-125, 0) = 125)
    by (apply norm_eq; [lra | simpl; lra]).
  rewrite Hn. simpl snd.
  assert (H : Rgtb 125 0 = true) by (apply Rgtb_true; lra).
  now rewrite H.
Qed.

Lemma scenario_heading :
  heading_correction (worst_force 1 1 (Some [(0.5, 0)]) [(0.3, 0)]) = PI / 4.
Proof.
  rewrite scenario_worst_force. unfold heading_correction; simpl.
  assert (Hpi : 0 < PI) by apply PI_RGT_0.
  assert (Ha : arctan2 0 (-125) = PI).
  { unfold arctan2.
    assert (H1 : Rltb 0 (-125) = false) by (apply Rltb_false; lra).
    assert (H2 : Rltb (-125) 0 = true) by (apply Rltb_true; lra).
    assert (H3 : Rleb 0 0 = true) by (apply Rleb_true; lra).
    rewrite H1, H2, H3.
    replace (0 / -125) with 0 by field. rewrite atan_0. lra. }
  rewrite Ha. unfold clip.
  rewrite Rmax_left by lra. rewrite Rmin_right by lra. reflexivity.
Qed.

End Scenario.

(** * Part III: further properties of the code *)

(** ** The force field *)

Module ForceExtras.

Import Np NpFacts Force ForceFacts.

Lemma add_comm (a b : vec2) : add a b = add b a.
Proof. unfold add. apply injective_projections; simpl; ring. Qed.

Lemma add_assoc (a b c : vec2) : add (add a b) c = add a (add b c).
Proof. unfold add. apply injective_projections; simpl; ring. Qed.

Lemma fold_add_shift (l : list vec2) :
  forall acc, fold_left add l acc = add acc (fold_left add l zeros).
Proof.
  induction l as [|x l IH]; intros acc; simpl.
  - now rewrite add_zeros_r.
  - rewrite IH, (IH (add zeros x)), add_zeros_l. apply add_assoc.
Qed.

Lemma force_cons point r o obs :
  compute_repulsive_force point (Some (o :: obs)) r
  = add (contribution point r o)
        (compute_repulsive_force point (Some obs) r).
Proof.
  unfold compute_repulsive_force. rewrite !fold_repulsion. simpl.
  rewrite fold_add_shift, add_zeros_l. reflexivity.
Qed.

Lemma norm_scale (k : R) (v : vec2) :
  0 <= k -> norm (scale k v) = k * norm v.
Proof.
  intros Hk. unfold norm, scale; simpl.
  replace (k * fst v * (k * fst v) + k * snd v * (k * snd v))
    with ((k * k) * (fst v * fst v + snd v * snd v)) by ring.
  rewrite sqrt_mult_alt by nra.
  now rewrite sqrt_square.
Qed.

Lemma norm_square (v : vec2) :
  norm v * norm v = fst v * fst v + snd v * snd v.
Proof. unfold norm. apply sqrt_sqrt. nra. Qed.

(** X1: the force of two obstacle arrays put end to end is the sum of their
    forces, so every obstacle acts on its own; no obstacles, as [None] or
    as an empty array, give the zero force. *)
Theorem X1_force_is_additive :
  forall (point : vec2) (obs1 obs2 : list vec2) (influence_range : R),
    compute_repulsive_force point (Some (obs1 ++ obs2)) influence_range
    = add (compute_repulsive_force point (Some obs1) influence_range)
          (compute_repulsive_force point (Some obs2) influence_range)
    /\ compute_repulsive_force point None influence_range = zeros
    /\ compute_repulsive_force point (Some []) influence_range = zeros.
Proof.
  intros point obs1 obs2 r. split; [|split; reflexivity].
  induction obs1 as [|o obs1 IH]; simpl app.
  - change (compute_repulsive_force point (Some []) r) with zeros.
    now rewrite add_zeros_l.
  - rewrite !force_cons, IH. symmetry. apply add_assoc.
Qed.

(** X2: the order of the obstacles in the array does not change the
    force. *)
Theorem X2_force_ignores_obstacle_order :
  forall (point : vec2) (obs obs' : list vec2) (influence_range : R),
    Permutation obs obs' ->
    compute_repulsive_force point (Some obs) influence_range
    = compute_repulsive_force point (Some obs') influence_range.
Proof.
  intros point obs obs' r H. induction H.
  - reflexivity.
  - rewrite !force_cons. now rewrite IHPermutation.
  - rewrite !force_cons, <- !add_assoc.
    now rewrite (add_comm (contribution point r y)).
  - congruence.
Qed.

Lemma X2_force_ignores_obstacle_order_witness :
  Permutation [(1, 0); (0, 1)] [(0, 1); (1, 0)]
  /\ compute_repulsive_force (0, 0) (Some [(1, 0); (0, 1)]) 1
     = compute_repulsive_force (0, 0) (Some [(0, 1); (1, 0)]) 1.
Proof.
  assert (H : Permutation [(1, 0); (0, 1)] [(0, 1); (1, 0)])
    by apply perm_swap.
  split; [exact H|].
  exact (X2_force_ignores_obstacle_order (0, 0) _ _ 1 H).
Defined.

Lemma force_out_of_reach point obs r :
  Forall (fun o => norm (sub point o) < 1e-6 \/ r < norm (sub point o)) obs ->
  compute_repulsive_force point (Some obs) r = zeros.
Proof.
  induction 1 as [|o obs Ho _ IH].
  - reflexivity.
  - rewrite force_cons, IH, contribution_out_of_range by exact Ho.
    apply add_zeros_l.
Qed.

(** X3: when every obstacle is either farther from the point than
    [influence_range] or nearer than [1e-6], the force is zero. *)
Theorem X3_obstacles_out_of_reach_give_no_force :
  forall (point : vec2) (obs : list vec2) (influence_range : R),
    Forall (fun o => norm (sub point o) < 1e-6
                     \/ influence_range < norm (sub point o)) obs ->
    compute_repulsive_force point (Some obs) influence_range = zeros.
Proof. exact force_out_of_reach. Qed.

Lemma X3_obstacles_out_of_reach_give_no_force_witness :
  Forall (fun o => norm (sub (1, 0) o) < 1e-6 \/ 0.5 < norm (sub (1, 0) o))
         [(0, 0)]
  /\ compute_repulsive_force (1, 0) (Some [(0, 0)]) 0.5 = zeros.
Proof.
  assert (H : Forall (fun o => norm (sub (1, 0) o) < 1e-6
                               \/ 0.5 < norm (sub (1, 0) o)) [(0, 0)]).
  { constructor; [|constructor]. right. rewrite norm_unit_x. lra. }
  split; [exact H|].
  exact (X3_obstacles_out_of_reach_give_no_force (1, 0) [(0, 0)] 0.5 H).
Defined.

(** X4: one obstacle in range, at distance [d], pushes the point straight
    away from itself: the force is [(point - obs)] times the positive
    factor [1/d^4], and its length is [1/d^3]. *)
Theorem X4_single_obstacle_pushes_straight_away :
  forall (point obs : vec2) (influence_range : R),
    let d := norm (sub point obs) in
    1e-6 <= d <= influence_range ->
    compute_repulsive_force point (Some [obs]) influence_range
    = scale (1 / d ^ 4) (sub point obs)
    /\ 0 < 1 / d ^ 4
    /\ norm (compute_repulsive_force point (Some [obs]) influence_range)
       = 1 / d ^ 3.
Proof.
  intros point obs r d Hd.
  assert (Hpos : 0 < d) by lra.
  assert (Hforce : compute_repulsive_force point (Some [obs]) r
                   = scale (1 / d ^ 4) (sub point obs)).
  { rewrite force_cons.
    change (compute_repulsive_force point (Some []) r) with zeros.
    rewrite add_zeros_r, contribution_in_range by exact Hd.
    fold d. unfold scale, vdiv; simpl.
    apply injective_projections; simpl; field; lra. }
  assert (Hk : 0 < 1 / d ^ 4).
  { apply Rdiv_lt_0_compat; [lra|]. apply pow_lt. exact Hpos. }
  split; [exact Hforce|]. split; [exact Hk|].
  rewrite Hforce, norm_scale by lra. fold d. field. lra.
Qed.

Lemma X4_single_obstacle_pushes_straight_away_witness :
  1e-6 <= norm (sub (1, 0) (0, 0)) <= 1
  /\ norm (compute_repulsive_force (1, 0) (Some [(0, 0)]) 1)
     = 1 / norm (sub (1, 0) (0, 0)) ^ 3.
Proof.
  assert (H : 1e-6 <= norm (sub (1, 0) (0, 0)) <= 1)
    by (rewrite norm_unit_x; lra).
  split; [exact H|].
  exact (proj2 (proj2 (X4_single_obstacle_pushes_straight_away
                         (1, 0) (0, 0) 1 H))).
Defined.

End ForceExtras.

(** ** The worst step and the heading *)

Module CorrectorExtras.

Import Np NpFacts ArrayFacts Force ForceFacts ForceExtras Corrector.

(** The loop of lines 327-335 over the forces of the steps: the state keeps
    a force seen so far, or zero, with its length, which is at least the
    length of every force seen. *)
Lemma worst_fold (F : vec2 -> vec2) (steps : list vec2) :
  forall st : vec2 * R,
    snd st = norm (fst st) ->
    let st' :=
      fold_left (fun (st : vec2 * R) (step : vec2) =>
                   if Rgtb (norm (F step)) (snd st)
                   then (F step, norm (F step)) else st)
                steps st in
    snd st' = norm (fst st')
    /\ snd st <= snd st'
    /\ Forall (fun step => norm (F step) <= snd st') steps
    /\ (fst st' = fst st \/ In (fst st') (map F steps)).
Proof.
  induction steps as [|step steps IH]; intros st Hst; simpl.
  - repeat split; auto; lra.
  - destruct (Rgtb (norm (F step)) (snd st)) eqn:E.
    + apply Rgtb_true in E.
      destruct (IH (F step, norm (F step)) eq_refl) as (H1 & H2 & H3 & H4).
      simpl in H2, H4.
      split; [exact H1|]. split; [lra|].
      split; [constructor; [lra | exact H3]|].
      right. destruct H4 as [H4|H4]; [left; now symmetry | now right].
    + apply Rgtb_false in E.
      destruct (IH st Hst) as (H1 & H2 & H3 & H4).
      split; [exact H1|]. split; [exact H2|].
      split; [constructor; [lra | exact H3]|].
      destruct H4 as [H4|H4]; [now left | right; now right].
Qed.

Section Config.

Variables MAX_V RATE : R.

Lemma worst_force_spec (obstacle_points : option (list vec2))
      (traj : trajectory) :
  let force_at := fun step : vec2 =>
    compute_repulsive_force (scale (MAX_V / RATE) step) obstacle_points 1 in
  let w := worst_force MAX_V RATE obstacle_points traj in
  Forall (fun step => norm (force_at step) <= norm w) traj
  /\ (w = zeros \/ In w (map force_at traj)).
Proof.
  intros force_at w.
  assert (H0 : snd (zeros, 0) = norm (fst (zeros, 0)))
    by (simpl; now rewrite norm_zeros).
  generalize (worst_fold force_at traj (zeros, 0) H0). cbv zeta.
  intros (H1 & _ & H3 & H4).
  assert (Hw : w = fst (fold_left
                          (fun (st : vec2 * R) (step : vec2) =>
                             if Rgtb (norm (force_at step)) (snd st)
                             then (force_at step, norm (force_at step))
                             else st)
                          traj (zeros, 0)))
    by apply CorrectorFacts.worst_force_entries.
  rewrite Hw, <- H1. split; [exact H3 | exact H4].
Qed.

(** X5: the force kept for a trajectory is at least as long as the force at
    every step of it, and it is the force at one of the steps, or zero when
    no step feels a force. *)
Theorem X5_worst_force_is_the_longest :
  forall (obstacle_points : option (list vec2)) (traj : trajectory),
    let force_at := fun step : vec2 =>
      compute_repulsive_force (scale (MAX_V / RATE) step) obstacle_points 1 in
    let w := worst_force MAX_V RATE obstacle_points traj in
    Forall (fun step => norm (force_at step) <= norm w) traj
    /\ (w = zeros \/ In w (map force_at traj)).
Proof. exact worst_force_spec. Qed.

Lemma worst_force_out_of_reach (obs : list vec2) (traj : trajectory) :
  Forall (fun step =>
            Forall (fun o =>
                      norm (sub (scale (MAX_V / RATE) step) o) < 1e-6
                      \/ 1 < norm (sub (scale (MAX_V / RATE) step) o)) obs)
         traj ->
  worst_force MAX_V RATE (Some obs) traj = zeros.
Proof.
  intros H.
  destruct (worst_force_spec (Some obs) traj) as [_ [Hz|Hin]]; [exact Hz|].
  apply in_map_iff in Hin. destruct Hin as (step & Hstep & Hin).
  rewrite Forall_forall in H. rewrite <- Hstep.
  apply force_out_of_reach. now apply H.
Qed.

(** X6: trajectories whose steps are all out of reach of every obstacle
    (farther than the influence range [1], or nearer than [1e-6]) come out
    of the corrector with the values they had. *)
Theorem X6_out_of_reach_batch_is_unchanged :
  forall (obs : list vec2) (a : batch),
    Forall
      (fun traj =>
         Forall (fun step =>
                   Forall (fun o =>
                             norm (sub (scale (MAX_V / RATE) step) o) < 1e-6
                             \/ 1 < norm (sub (scale (MAX_V / RATE) step) o))
                          obs)
                traj)
      a ->
    corrected_values MAX_V RATE (Some obs) a = a.
Proof.
  intros obs a H. unfold corrected_values.
  destruct (no_obstacles (Some obs)); [reflexivity|].
  induction H as [|traj a Htraj _ IH]; simpl; [reflexivity|].
  rewrite IH. f_equal. unfold correct_trajectory.
  rewrite (worst_force_out_of_reach obs traj Htraj).
  rewrite RotationFacts.heading_correction_zeros.
  apply RotationFacts.rotate_zero.
Qed.

End Config.

Lemma X6_out_of_reach_batch_is_unchanged_witness :
  Forall
    (fun traj =>
       Forall (fun step =>
                 Forall (fun o =>
                           norm (sub (scale (1 / 1) step) o) < 1e-6
                           \/ 1 < norm (sub (scale (1 / 1) step) o))
                        [(3, 0)])
              traj)
    [[(1, 0)]]
  /\ corrected_values 1 1 (Some [(3, 0)]) [[(1, 0)]] = [[(1, 0)]].
Proof.
  assert (Hn : norm (sub (scale (1 / 1) (1, 0)) (3, 0)) = 2).
  { apply Scenario.norm_eq; [lra|]. unfold sub, scale; simpl. lra. }
  assert (H : Forall
                (fun traj =>
                   Forall (fun step =>
                             Forall (fun o =>
                                       norm (sub (scale (1 / 1) step) o) < 1e-6
                                       \/ 1 < norm (sub (scale (1 / 1) step) o))
                                    [(3, 0)])
                          traj)
                [[(1, 0)]]).
  { constructor; [|constructor]. constructor; [|constructor].
    constructor; [|constructor]. right. rewrite Hn. lra. }
  split; [exact H|].
  exact (X6_out_of_reach_batch_is_unchanged 1 1 [(3, 0)] [[(1, 0)]] H).
Defined.

(** *** The heading *)

Lemma arctan2_scale (k y x : R) :
  0 < k -> arctan2 (k * y) (k * x) = arctan2 y x.
Proof.
  intros Hk. unfold arctan2.
  assert (Hpos : forall a, Rltb 0 (k * a) = Rltb 0 a).
  { intros a. destruct (Rltb 0 a) eqn:E.
    - apply Rltb_true in E. apply Rltb_true. nra.
    - apply Rltb_false in E. apply Rltb_false. nra. }
  assert (Hneg : forall a, Rltb (k * a) 0 = Rltb a 0).
  { intros a. destruct (Rltb a 0) eqn:E.
    - apply Rltb_true in E. apply Rltb_true. nra.
    - apply Rltb_false in E. apply Rltb_false. nra. }
  assert (Hle : forall a, Rleb 0 (k * a) = Rleb 0 a).
  { intros a. destruct (Rleb 0 a) eqn:E.
    - apply Rleb_true in E. apply Rleb_true. nra.
    - apply Rleb_false in E. apply Rleb_false. nra. }
  rewrite !Hpos, !Hneg, !Hle.
  destruct (Rltb 0 x) eqn:E1.
  - apply Rltb_true in E1. f_equal. field. lra.
  - destruct (Rltb x 0) eqn:E2; [|reflexivity].
    apply Rltb_true in E2.
    replace (k * y / (k * x)) with (y / x) by (field; lra). reflexivity.
Qed.

(** X7: the heading correction depends on the direction of the force only:
    a force made longer or shorter by a positive factor gives the same
    angle. *)
Theorem X7_heading_ignores_force_magnitude :
  forall (k : R) (max_force : vec2),
    0 < k ->
    heading_correction (scale k max_force) = heading_correction max_force.
Proof.
  intros k f Hk. unfold heading_correction, scale; simpl.
  now rewrite arctan2_scale.
Qed.

Lemma X7_heading_ignores_force_magnitude_witness :
  0 < 2
  /\ heading_correction (scale 2 (1, 1)) = heading_correction (1, 1).
Proof.
  assert (H : 0 < 2) by lra.
  split; [exact H|].
  exact (X7_heading_ignores_force_magnitude 2 (1, 1) H).
Defined.

(** X8: a force that does not point forward (its first component is not
    positive) and is not zero always gives the full correction: [PI/4] when
    its second component is not negative, [-PI/4] when it is. *)
Theorem X8_backward_force_saturates_heading :
  forall max_force : vec2,
    fst max_force <= 0 ->
    max_force <> zeros ->
    heading_correction max_force
    = if Rleb 0 (snd max_force) then PI / 4 else - PI / 4.
Proof.
  intros [x y] Hx Hne. simpl in Hx.
  assert (Hpi : 0 < PI) by apply PI_RGT_0.
  unfold heading_correction; simpl fst; simpl snd.
  assert (E1 : Rltb 0 x = false) by (apply Rltb_false; lra).
  destruct (atan_bound (y / x)) as [Hlo Hhi].
  unfold arctan2. rewrite E1.
  destruct (Rltb x 0) eqn:E2.
  - destruct (Rleb 0 y) eqn:E3; unfold clip.
    + rewrite Rmax_left by lra. now rewrite Rmin_right by lra.
    + rewrite Rmax_right by lra. now rewrite Rmin_left by lra.
  - apply Rltb_false in E2.
    assert (x = 0) by lra. subst x.
    destruct (Rltb 0 y) eqn:E3.
    + apply Rltb_true in E3.
      assert (E4 : Rleb 0 y = true) by (apply Rleb_true; lra).
      rewrite E4. unfold clip.
      rewrite Rmax_left by lra. now rewrite Rmin_right by lra.
    + apply Rltb_false in E3.
      destruct (Rltb y 0) eqn:E4.
      * apply Rltb_true in E4.
        assert (E5 : Rleb 0 y = false) by (apply Rleb_false; lra).
        rewrite E5. unfold clip.
        rewrite Rmax_right by lra. now rewrite Rmin_left by lra.
      * apply Rltb_false in E4.
        assert (y = 0) by lra. subst y. now elim Hne.
Qed.

Lemma X8_backward_force_saturates_heading_witness :
  fst (-1, 0) <= 0 /\ (-1, 0) <> zeros
  /\ heading_correction (-1, 0)
     = if Rleb 0 (snd (-1, 0)) then PI / 4 else - PI / 4.
Proof.
  assert (H1 : fst (-1, 0) <= 0) by (simpl; lra).
  assert (H2 : (-1, 0) <> zeros)
    by (unfold zeros; intros H; injection H; intros; lra).
  split; [exact H1|]. split; [exact H2|].
  exact (X8_backward_force_saturates_heading (-1, 0) H1 H2).
Defined.

End CorrectorExtras.

(** ** The tick, message by message *)

Module TickExtras.

Import Np NpFacts Deque Force Corrector Projector Node InPlace.

Lemma py_index_position {A} (a : list A) (i : Z) :
  py_index a i
  = match py_position a i with
    | Some k => nth_error a k
    | None => None
    end.
Proof.
  unfold py_index, py_position; cbv zeta.
  destruct ((0 <=? i) && (i <? Z.of_nat (length a)))%Z; [reflexivity|].
  destruct ((- Z.of_nat (length a) <=? i) && (i <? 0))%Z; reflexivity.
Qed.

Lemma py_position_bound {A} (a : list A) (i : Z) (k : nat) :
  py_position a i = Some k -> (k < length a)%nat.
Proof.
  unfold py_position; cbv zeta.
  destruct ((0 <=? i) && (i <? Z.of_nat (length a)))%Z eqn:E1.
  - intros H; injection H as <-.
    apply andb_true_iff in E1. destruct E1 as [H1 H2].
    apply Z.leb_le in H1. apply Z.ltb_lt in H2. lia.
  - destruct ((- Z.of_nat (length a) <=? i) && (i <? 0))%Z eqn:E2;
      [|discriminate].
    intros H; injection H as <-.
    apply andb_true_iff in E2. destruct E2 as [H1 H2].
    apply Z.leb_le in H1. apply Z.ltb_lt in H2. lia.
Qed.

Lemma py_position_none {A} (a : list A) (i : Z) :
  py_position a i = None
  <-> (i < - Z.of_nat (length a) \/ Z.of_nat (length a) <= i)%Z.
Proof.
  unfold py_position; cbv zeta.
  destruct (Z.leb_spec 0 i); destruct (Z.ltb_spec i (Z.of_nat (length a)));
    destruct (Z.leb_spec (- Z.of_nat (length a)) i);
    destruct (Z.ltb_spec i 0); simpl;
    split; intros Hi; try discriminate; try reflexivity; lia.
Qed.

Lemma py_index_none {A} (a : list A) (i : Z) :
  py_index a i = None
  <-> (i < - Z.of_nat (length a) \/ Z.of_nat (length a) <= i)%Z.
Proof.
  rewrite py_index_position, <- py_position_none.
  destruct (py_position a i) as [k|] eqn:E; [|tauto].
  apply py_position_bound in E.
  split; [|discriminate].
  intros H. apply nth_error_None in H. lia.
Qed.

Lemma py_position_map {A B} (f : A -> B) (a : list A) (i : Z) :
  py_position (map f a) i = py_position a i.
Proof. unfold py_position. now rewrite length_map. Qed.

Lemma py_index_map {A B} (f : A -> B) (a : list A) (i : Z) :
  py_index (map f a) i = option_map f (py_index a i).
Proof.
  rewrite !py_index_position, py_position_map.
  destruct (py_position a i); [|reflexivity].
  apply nth_error_map.
Qed.

Lemma flatten_length (b : batch) (L : nat) :
  Forall (fun traj => length traj = L) b ->
  length (flatten b) = (2 * (length b * L))%nat.
Proof.
  unfold flatten. induction 1 as [|traj b Htraj _ IH]; simpl; [reflexivity|].
  rewrite length_app, IH.
  assert (Hrow : forall t : trajectory,
             length (flat_map (fun p : vec2 => [fst p; snd p]) t)
             = (2 * length t)%nat).
  { induction t as [|p t IHt]; simpl; [reflexivity|]. rewrite IHt. lia. }
  rewrite Hrow, Htraj. lia.
Qed.

Section Tick.

Variable frame : Type.
Variable infer_points : frame -> list point3.
Variable seed : Type.
Variable sample : seed -> list frame -> batch.
Variables MAX_V RATE : R.

(** The row of the sampled batch the waypoint is read from, after the
    corrector. *)
Lemma corrected_head (obst : option (list vec2)) (t : trajectory)
      (rest : batch) :
  corrected_values MAX_V RATE obst (t :: rest)
  = (if no_obstacles obst then t
     else map (rotate_point
                 (heading_correction (worst_force MAX_V RATE obst t))) t)
    :: (if no_obstacles obst then rest
        else map (correct_trajectory MAX_V RATE obst) rest).
Proof.
  unfold corrected_values. destruct (no_obstacles obst); [reflexivity|].
  simpl. unfold correct_trajectory at 1.
  now rewrite RotationFacts.rotate_map.
Qed.

Lemma publish_apf_cons (n : node frame) (t : trajectory) (rest : batch) :
  publish_action_msgs_apf n (t :: rest)
  = SampledActions (0 :: flatten (t :: rest))
    :: match py_index t (waypoint n) with
       | None => [IndexError]
       | Some chosen => [Waypoint (fst chosen) (snd chosen)]
       end.
Proof. reflexivity. Qed.

Lemma publish_cons (n : node frame) (t : trajectory) (rest : batch) :
  publish_action_msgs MAX_V RATE n (t :: rest)
  = SampledActions (0 :: flatten (t :: rest))
    :: match py_index t (waypoint n) with
       | None => [IndexError]
       | Some chosen =>
           let chosen' :=
             if normalize n then scale (MAX_V / RATE) chosen else chosen in
           [Waypoint (fst chosen') (snd chosen')]
       end.
Proof. reflexivity. Qed.

(** X9: a tick with enough context whose waypoint index is outside
    [[-len_traj, len_traj)], or whose batch is empty, publishes the sampled
    actions and then stops on an [IndexError]: no waypoint and no image are
    published. *)
Theorem X9_tick_with_bad_waypoint_index :
  forall (n : node frame) (s : seed),
    (context_size n < len (context_queue n))%nat ->
    match sample s (to_list (context_queue n)) with
    | [] => True
    | t :: _ => (waypoint n < - Z.of_nat (length t)
                 \/ Z.of_nat (length t) <= waypoint n)%Z
    end ->
    snd (timer_cb_apf sample MAX_V RATE n s)
    = [SamplerRun;
       SampledActions
         (0 :: flatten (corrected_values
                          MAX_V RATE (obstacle_points n)
                          (sample s (to_list (context_queue n)))));
       IndexError].
Proof.
  intros n s Hready Hbad.
  rewrite (NodeFacts.timer_cb_apf_values frame seed sample MAX_V RATE n s
                                         Hready).
  cbv zeta. cbn [snd].
  destruct (sample s (to_list (context_queue n))) as [|t rest] eqn:E.
  - assert (Hc : corrected_values MAX_V RATE (obstacle_points n) [] = [])
      by (unfold corrected_values;
          destruct (no_obstacles (obstacle_points n)); reflexivity).
    rewrite Hc. reflexivity.
  - assert (Hnone : py_index t (waypoint n) = None)
      by now apply py_index_none.
    rewrite corrected_head.
    destruct (no_obstacles (obstacle_points n)); rewrite publish_apf_cons.
    + rewrite Hnone. reflexivity.
    + rewrite py_index_map, Hnone. reflexivity.
Qed.


(** *** The array of explore.py *)

Lemma py_position_index {A} (a : list A) (i : Z) (k : nat) (d : A) :
  py_position a i = Some k -> py_index a i = Some (nth k a d).
Proof.
  intros H. rewrite py_index_position, H.
  apply nth_error_nth'. now apply (py_position_bound a i).
Qed.

(** X11: in explore.py the waypoint is scaled in the sampled array itself
    when the model is normalized.  So the sampled-actions message, sent
    before, carries the batch as sampled; the waypoint message carries the
    scaled entry; and the image is drawn from the batch with that one entry
    of trajectory 0 scaled.  Without normalization the batch is drawn as
    sampled. *)
Theorem X11_normalized_waypoint_is_scaled_in_place :
  forall (n : node frame) (s : seed) (t : trajectory) (rest : batch)
         (k : nat),
    (context_size n < len (context_queue n))%nat ->
    sample s (to_list (context_queue n)) = t :: rest ->
    py_position t (waypoint n) = Some k ->
    let chosen := nth k t zeros in
    let chosen' :=
      if normalize n then scale (MAX_V / RATE) chosen else chosen in
    snd (timer_cb sample MAX_V RATE n s)
    = [SamplerRun; SampledActions (0 :: flatten (t :: rest));
       Waypoint (fst chosen') (snd chosen'); VizImage false]
    /\ viz_input sample MAX_V RATE n s
       = Some ((if normalize n then set_nth t k chosen' else t) :: rest).
Proof.
  intros n s t rest k Hready Hs Hk chosen chosen'.
  assert (Hidx : py_index t (waypoint n) = Some chosen)
    by now apply py_position_index.
  unfold timer_cb, viz_input.
  destruct (Nat.leb_spec (len (context_queue n)) (context_size n)); [lia|].
  rewrite Hs, publish_cons, Hidx. cbv zeta. fold chosen'.
  split; [reflexivity|].
  cbn [raised existsb orb]. unfold array_after_publish. rewrite Hk.
  unfold chosen', chosen. destruct (normalize n); reflexivity.
Qed.

End Tick.

Lemma X9_tick_with_bad_waypoint_index_witness :
  let n : node unit := mkNode turtlebot4 5 false 0 (Deque.mk 1 [tt]) 0 None in
  let sample := fun (_ : unit) (_ : list unit) => [[(1, 0); (2, 0)]] in
  (context_size n < len (context_queue n))%nat
  /\ snd (timer_cb_apf sample 1 4 n tt)
     = [SamplerRun;
        SampledActions
          (0 :: flatten (corrected_values
                           1 4 (obstacle_points n)
                           (sample tt (to_list (context_queue n)))));
        IndexError].
Proof.
  intros n sample.
  assert (H : (context_size n < len (context_queue n))%nat)
    by (unfold n, len; simpl; lia).
  split; [exact H|].
  apply (X9_tick_with_bad_waypoint_index unit unit sample 1 4 n tt H).
  unfold sample, n; simpl. lia.
Defined.


Lemma X11_normalized_waypoint_is_scaled_in_place_witness :
  let n : node unit := mkNode turtlebot4 1 true 0 (Deque.mk 1 [tt]) 0 None in
  let sample := fun (_ : unit) (_ : list unit) => [[(1, 0); (2, 0)]] in
  (context_size n < len (context_queue n))%nat
  /\ viz_input sample 1 4 n tt
     = Some [[(1, 0); scale (1 / 4) (2, 0)]].
Proof.
  intros n sample.
  assert (H : (context_size n < len (context_queue n))%nat)
    by (unfold n, len; simpl; lia).
  split; [exact H|].
  exact (proj2 (X11_normalized_waypoint_is_scaled_in_place
                  unit unit sample 1 4 n tt [(1, 0); (2, 0)] [] 1%nat
                  H eq_refl eq_refl)).
Defined.

End TickExtras.

(** ** Frames over time *)

Module SessionExtras.

Import Np Deque Corrector Projector Node Session.

Lemma append_len {A} (d : deque A) (x : A) :
  (len d <= maxlen d)%nat ->
  len (append d x) = Nat.min (len d + 1) (maxlen d).
Proof.
  unfold len, append; intros H. rewrite length_app. cbn [length].
  destruct (Nat.ltb_spec (maxlen d) (length (items d) + 1));
    cbn [items maxlen].
  - destruct (items d) as [|y l]; cbn [length tl app] in *; [lia|].
    rewrite length_app; cbn [length]. lia.
  - rewrite length_app; cbn [length]. lia.
Qed.

Section Session.

Variable frame : Type.
Variable infer_points : frame -> list point3.
Variable seed : Type.
Variable sample : seed -> list frame -> batch.
Variables MAX_V RATE : R.

Lemma run_image_cb_fields (msgs : list frame) :
  forall n : node frame,
    context_size (run_image_cb n msgs) = context_size n
    /\ context_queue (run_image_cb n msgs)
       = fold_left append msgs (context_queue n).
Proof.
  unfold run_image_cb.
  induction msgs as [|msg msgs IH]; intros n; cbn [fold_left]; [tauto|].
  destruct (IH (fst (image_cb n msg))) as [H1 H2].
  rewrite H1, H2. unfold image_cb; cbn [fst context_size context_queue].
  tauto.
Qed.

(** X12: in explore.py, a node started with [context_size = c] runs its
    first sampling tick once [c + 1] frames have arrived, and not before:
    after the callbacks of [msgs] the tick is empty exactly when
    [len(msgs) <= c]. *)
Theorem X12_tick_is_ready_after_enough_frames :
  forall (r : robot) (w : Z) (nrm : bool) (ctx : nat) (now : Z)
         (msgs : list frame) (s : seed),
    snd (timer_cb sample MAX_V RATE
                  (run_image_cb (init r w nrm ctx now) msgs) s) = []
    <-> (length msgs <= ctx)%nat.
Proof.
  intros r w nrm ctx now msgs s.
  destruct (run_image_cb_fields msgs (init r w nrm ctx now)) as [H1 H2].
  unfold timer_cb. rewrite H1, H2. simpl context_size. simpl context_queue.
  rewrite DequeFacts.pushes_keep_last. unfold len; simpl items.
  rewrite length_skipn.
  destruct (Nat.leb_spec (length msgs - (length msgs - (ctx + 1))) ctx);
    simpl; split; intros H'; try reflexivity; try discriminate; lia.
Qed.

Lemma run_image_cb_apf_fields (arrivals : list (Z * frame)) :
  forall n : node frame,
    let n' := fst (run_image_cb_apf infer_points n arrivals) in
    let trace := snd (run_image_cb_apf infer_points n arrivals) in
    context_size n' = context_size n
    /\ maxlen (context_queue n') = maxlen (context_queue n)
    /\ ((len (context_queue n) <= maxlen (context_queue n))%nat ->
        len (context_queue n')
        = Nat.min (len (context_queue n) + length (logged_times trace))
                  (maxlen (context_queue n)))
    /\ gaps_at_least ctx_dt_ns (last_ctx_time n :: logged_times trace).
Proof.
  induction arrivals as [|[now msg] arrivals IH]; intros n; simpl.
  - repeat split; auto. intros H. unfold logged_times; simpl. lia.
  - unfold image_cb_apf.
    destruct (Z.ltb_spec (now - last_ctx_time n) ctx_dt_ns) as [Hgate|Hgate].
    + (* the frame is dropped *)
      specialize (IH n). cbv zeta in IH.
      destruct (run_image_cb_apf infer_points n arrivals) as [n2 trace].
      simpl in *. exact IH.
    + (* the frame is taken *)
      match goal with
      | |- context [run_image_cb_apf infer_points ?m arrivals] =>
          specialize (IH m); set (n1 := m) in *
      end.
      cbv zeta in IH.
      destruct (run_image_cb_apf infer_points n1 arrivals) as [n2 trace].
      simpl in IH |- *.
      destruct IH as (H1 & H2 & H3 & H4).
      rewrite DequeFacts.append_maxlen in H2, H3.
      split; [exact H1|]. split; [exact H2|].
      split.
      * intros Hb.
        rewrite H3 by (rewrite <- (DequeFacts.append_maxlen _ msg);
                       now apply DequeFacts.append_bounded).
        rewrite append_len by exact Hb.
        unfold logged_times in *; simpl. lia.
      * unfold logged_times in *; simpl. split; [lia | exact H4].
Qed.

(** X13: in explore_apf.py, frames taken into the context queue are at
    least 0.25 s apart, whatever the arrival times: along any run of the
    image callback, each logged clock reading is at least [250000000] ns
    after the one before, and the first is that long after the reading
    stored in the node. *)
Theorem X13_accepted_frames_are_spaced :
  forall (n : node frame) (arrivals : list (Z * frame)),
    gaps_at_least
      250000000
      (last_ctx_time n
       :: logged_times (snd (run_image_cb_apf infer_points n arrivals))).
Proof.
  intros n arrivals.
  exact (proj2 (proj2 (proj2 (run_image_cb_apf_fields arrivals n)))).
Qed.

(** X14: in explore_apf.py, a node started with [context_size = c] runs its
    first sampling tick once [c + 1] frames were taken (logged), and not
    before, however many arrive: dropped frames do not count. *)
Theorem X14_tick_is_ready_after_enough_accepted_frames :
  forall (r : robot) (w : Z) (nrm : bool) (ctx : nat) (now : Z)
         (arrivals : list (Z * frame)) (s : seed),
    let n' :=
      fst (run_image_cb_apf infer_points (init r w nrm ctx now) arrivals) in
    let trace :=
      snd (run_image_cb_apf infer_points (init r w nrm ctx now) arrivals) in
    snd (timer_cb_apf sample MAX_V RATE n' s) = []
    <-> (length (logged_times trace) <= ctx)%nat.
Proof.
  intros r w nrm ctx now arrivals s n' trace.
  destruct (run_image_cb_apf_fields arrivals (init r w nrm ctx now))
    as (H1 & _ & H3 & _).
  fold n' trace in H1, H3. simpl in H1, H3.
  specialize (H3 (Nat.le_0_l _)).
  split.
  - intros H.
    destruct (Nat.le_gt_cases (len (context_queue n')) (context_size n'))
      as [Hle|Hgt]; [lia|].
    apply (NodeFacts.timer_cb_apf_runs frame seed sample MAX_V RATE n' s)
      in Hgt.
    rewrite H in Hgt. destruct Hgt.
  - intros H. unfold timer_cb_apf.
    destruct (Nat.leb_spec (len (context_queue n')) (context_size n'));
      [reflexivity | lia].
Qed.

End Session.

End SessionExtras.

(** ** The obstacle set *)

Module ProjectorExtras.

Import Np NpFacts Projector ProjectorFacts.

Lemma int32_monotone (a b : R) : a <= b -> (int32 a <= int32 b)%Z.
Proof.
  intros H. unfold int32.
  destruct (Rleb 0 a) eqn:Ea; destruct (Rleb 0 b) eqn:Eb.
  - destruct (base_Int_part a) as [A1 A2].
    destruct (base_Int_part b) as [B1 B2].
    apply Z.lt_succ_r, lt_IZR. rewrite succ_IZR. lra.
  - apply Rleb_true in Ea. apply Rleb_false in Eb. lra.
  - apply Rleb_false in Ea. apply Rleb_true in Eb.
    destruct (base_Int_part (- a)) as [A1 A2].
    destruct (base_Int_part b) as [B1 B2].
    assert (H1 : (-1 < Int_part (- a))%Z) by (apply lt_IZR; lra).
    assert (H2 : (-1 < Int_part b)%Z) by (apply lt_IZR; lra).
    lia.
  - destruct (base_Int_part (- a)) as [A1 A2].
    destruct (base_Int_part (- b)) as [B1 B2].
    assert (H1 : (Int_part (- b) < Int_part (- a) + 1)%Z)
      by (apply lt_IZR; rewrite plus_IZR; lra).
    lia.
Qed.

Lemma int32_lt_reflect (a b : R) : (int32 a < int32 b)%Z -> a < b.
Proof.
  intros H. destruct (Rlt_dec a b) as [|Hn]; [assumption|].
  assert (Hle : b <= a) by lra.
  apply int32_monotone in Hle. lia.
Qed.

Lemma int32_IZR (z : Z) : int32 (IZR z) = z.
Proof.
  unfold int32. destruct (Rleb 0 (IZR z)) eqn:E.
  - symmetry. apply Int_part_spec. lra.
  - rewrite <- opp_IZR.
    assert (H : (- z)%Z = Int_part (IZR (- z)))
      by (apply Int_part_spec; lra).
    lia.
Qed.

Lemma int32_below_reflect (r : R) (b : Z) : (int32 r < b)%Z -> r < IZR b.
Proof.
  intros H. apply int32_lt_reflect. now rewrite int32_IZR.
Qed.

(** *** The sampled columns *)

Lemma range_from_In (n : nat) :
  forall start step x,
    In x (range_from n start step)
    <-> exists k, (k < n)%nat /\ x = (start + Z.of_nat k * step)%Z.
Proof.
  induction n as [|n IH]; intros start step x; cbn [range_from In].
  - split; [tauto | intros (k & Hk & _); lia].
  - rewrite IH. split.
    + intros [<- | (k & Hk & ->)].
      * exists O. split; lia.
      * exists (S k). split; lia.
    + intros ([|k] & Hk & ->).
      * left. lia.
      * right. exists k. split; lia.
Qed.

Lemma columns_In (x : Z) :
  In x (range 0 (fst top_view_size) top_view_sampling_step)
  <-> (0 <= x < 400 /\ x mod 5 = 0)%Z.
Proof.
  unfold range. rewrite range_from_In.
  assert (E : Z.to_nat ((fst top_view_size - 0 + top_view_sampling_step - 1)
                        / top_view_sampling_step) = 80%nat) by reflexivity.
  rewrite E. unfold top_view_sampling_step. split.
  - intros (k & Hk & ->). split; [lia|].
    rewrite Z.add_0_l. apply Z.mod_mul. lia.
  - intros [Hx Hmod]. exists (Z.to_nat (x / 5)).
    assert (Hdiv : x = (5 * (x / 5))%Z)
      by (rewrite (Z.div_mod x 5) at 1 by lia; lia).
    assert (0 <= x / 5 < 80)%Z by lia.
    split; [lia|]. rewrite Z2Nat.id by lia. lia.
Qed.

Lemma valid_column (c : cell) :
  valid c = true -> (0 <= img_x c < 400)%Z.
Proof.
  unfold valid. rewrite !andb_true_iff.
  intros [[[H1 H2] _] _].
  apply Z.leb_le in H1. apply Z.ltb_lt in H2. simpl in H2. lia.
Qed.

Lemma filter_nil_iff {A} (f : A -> bool) (l : list A) :
  filter f l = [] <-> forall x, In x l -> f x = false.
Proof.
  induction l as [|y l IH]; simpl; [tauto|].
  destruct (f y) eqn:E.
  - split; [discriminate|]. intros H. specialize (H y (or_introl eq_refl)).
    congruence.
  - rewrite IH. split.
    + intros H x [<- | Hx]; auto.
    + intros H x Hx. apply H. now right.
Qed.

(** X15: the obstacle set is [None] exactly when no point of the cloud
    that falls in the grid falls in a sampled column (a column whose index
    is a multiple of 5): points in the other columns are not seen. *)
Theorem X15_no_obstacles_iff_sampled_columns_empty :
  forall (margin resolution : R) (points : list point3),
    update_top_view_and_obstacles margin resolution points = None
    <-> forall p, In p points ->
                  valid (rasterize margin resolution p) = true ->
                  (img_x (rasterize margin resolution p) mod 5 <> 0)%Z.
Proof.
  intros margin resolution points.
  set (cells := valid_cells margin resolution points).
  set (columns := range 0 (fst top_view_size) top_view_sampling_step).
  destruct (sample_columns_spec cells columns [])
    as (picks & Hfold & Hcols & _).
  assert (Hnone : update_top_view_and_obstacles margin resolution points
                  = None <-> picks = []).
  { unfold update_top_view_and_obstacles, sampled_obstacles.
    fold cells columns. rewrite Hfold. simpl app.
    destruct picks; simpl; split; intros H; try reflexivity; discriminate. }
  assert (Hpicks : picks = [] <-> filter (occupied cells) columns = []).
  { rewrite <- Hcols.
    destruct picks; simpl; split; intros H; try reflexivity; discriminate. }
  rewrite Hnone, Hpicks, filter_nil_iff. split.
  - intros H p Hp Hv Hmod.
    assert (Hin : In (rasterize margin resolution p) cells)
      by (apply valid_cells_In; exists p; auto).
    assert (Hcol : In (img_x (rasterize margin resolution p)) columns).
    { apply columns_In. split; [now apply valid_column | exact Hmod]. }
    specialize (H _ Hcol).
    assert (Hocc : occupied cells (img_x (rasterize margin resolution p))
                   = true)
      by (apply occupied_true; eexists; split; [exact Hin | reflexivity]).
    congruence.
  - intros H x Hx.
    destruct (occupied cells x) eqn:E; [|reflexivity].
    apply occupied_true in E. destruct E as (c & Hc & <-).
    apply valid_cells_In in Hc. destruct Hc as (p & Hp & -> & Hv).
    apply columns_In in Hx. destruct Hx as [_ Hmod].
    elim (H p Hp Hv Hmod).
Qed.

(** *** Order and bounds *)

Lemma range_from_sorted (n : nat) :
  forall start step,
    (0 < step)%Z -> StronglySorted Z.lt (range_from n start step).
Proof.
  induction n as [|n IH]; intros start step Hs; cbn [range_from];
    constructor.
  - now apply IH.
  - apply Forall_forall. intros x Hx.
    apply range_from_lower in Hx; lia.
Qed.

Lemma filter_sorted {A} (R : A -> A -> Prop) (f : A -> bool) (l : list A) :
  StronglySorted R l -> StronglySorted R (filter f l).
Proof.
  induction 1 as [|x l Hs IH Hall]; simpl; [constructor|].
  destruct (f x); [|exact IH].
  constructor; [exact IH|].
  apply Forall_forall. intros y Hy. apply filter_In in Hy.
  rewrite Forall_forall in Hall. now apply Hall.
Qed.

Lemma sorted_map_weaken {A B} (R : B -> B -> Prop) (S : A -> A -> Prop)
      (f : A -> B) (l : list A) :
  (forall a b, R (f a) (f b) -> S a b) ->
  StronglySorted R (map f l) -> StronglySorted S l.
Proof.
  intros HRS. induction l as [|x l IH]; simpl; intros H; [constructor|].
  inversion H as [|? ? Hs Hall]; subst.
  constructor; [now apply IH|].
  apply Forall_forall. intros y Hy.
  rewrite Forall_forall in Hall. apply HRS, Hall. now apply in_map.
Qed.

(** X16: the rows of the obstacle set are in the order of their columns,
    strictly increasing; for a positive resolution their lateral
    coordinates [y_local] are strictly decreasing, so no two rows are at
    the same lateral position. *)
Theorem X16_obstacles_are_ordered_by_column :
  forall (margin resolution : R) (points : list point3),
    let obst :=
      obstacle_list
        (update_top_view_and_obstacles margin resolution points) in
    StronglySorted Z.lt (map (column_of resolution) obst)
    /\ (0 < resolution ->
        StronglySorted (fun a b : vec2 => snd b < snd a) obst).
Proof.
  intros margin resolution points obst.
  destruct (obstacles_from_cells margin resolution points)
    as (picks & Hobst & Hcols & Hall).
  fold obst in Hobst.
  assert (Hmap : map (column_of resolution) obst = map img_x picks).
  { rewrite Hobst, map_map. apply map_ext_in. intros c Hc.
    rewrite Forall_forall in Hall. destruct (Hall c Hc) as (Hin & _).
    apply valid_cells_In in Hin. destruct Hin as (p & _ & -> & _).
    apply column_of_rasterized. }
  assert (Hsorted : StronglySorted Z.lt (map (column_of resolution) obst)).
  { rewrite Hmap, Hcols. apply filter_sorted.
    apply range_from_sorted. reflexivity. }
  split; [exact Hsorted|].
  intros Hres.
  apply (sorted_map_weaken Z.lt _ (column_of resolution)); [|exact Hsorted].
  intros a b Hab. unfold column_of in Hab.
  apply int32_lt_reflect in Hab. nra.
Qed.

Lemma X16_obstacles_are_ordered_by_column_witness :
  0 < 400
  /\ StronglySorted
       (fun a b : vec2 => snd b < snd a)
       (obstacle_list
          (update_top_view_and_obstacles
             0.05 400
             [mkPoint 0 0 0.5; mkPoint 0 0 0.3; mkPoint 0.1 0 0.2])).
Proof.
  assert (H : 0 < 400) by lra.
  split; [exact H|].
  exact (proj2 (X16_obstacles_are_ordered_by_column
                  0.05 400
                  [mkPoint 0 0 0.5; mkPoint 0 0 0.3; mkPoint 0.1 0 0.2]) H).
Defined.

(** X17: every row [(x_local, y_local)] of the obstacle set lies in the
    grid: its forward distance is at least the floor [1e-3] and less than
    401 pixels, and its lateral offset is less than 201 pixels to the left
    and less than 200 pixels to the right of the robot, in pixels of the
    resolution. *)
Theorem X17_obstacles_lie_in_the_grid :
  forall (margin resolution : R) (points : list point3),
    Forall (fun o : vec2 =>
              1e-3 <= fst o
              /\ fst o * resolution < 401
              /\ -201 < - snd o * resolution < 200)
           (obstacle_list
              (update_top_view_and_obstacles margin resolution points)).
Proof.
  intros margin resolution points.
  destruct (obstacles_from_cells margin resolution points)
    as (picks & Hobst & _ & Hall).
  rewrite Hobst. apply Forall_forall. intros o Ho.
  apply in_map_iff in Ho. destruct Ho as (c & <- & Hc).
  rewrite Forall_forall in Hall. destruct (Hall c Hc) as (Hin & _).
  apply valid_cells_In in Hin. destruct Hin as (p & _ & -> & Hv).
  unfold valid in Hv. rewrite !andb_true_iff in Hv.
  destruct Hv as [[[H1 H2] H3] _].
  apply Z.leb_le, int32_nonneg in H1.
  apply Z.ltb_lt, int32_below_reflect in H2.
  apply Z.leb_le, int32_nonneg in H3.
  unfold obstacle_of; simpl in *.
  generalize (shift_depth_floor margin (pZ p)); intros Hfloor.
  change (400 / 2)%Z with 200%Z in H1, H2.
  split; [exact Hfloor|]. split; [lra|]. split; lra.
Qed.

End ProjectorExtras.

(** ** The robots *)

Module RobotExtras.

Import Np NpFacts Projector ProjectorFacts ProjectorExtras.

Lemma proximity_positive (r : robot) : 1 <= proximity_threshold r.
Proof. destruct r; simpl; lra. Qed.

Lemma resolution_positive (r : robot) :
  0 < top_view_resolution (proximity_threshold r).
Proof.
  unfold top_view_resolution; simpl fst.
  generalize (proximity_positive r); intros H.
  apply Rdiv_lt_0_compat; lra.
Qed.

Lemma resolution_times_proximity (r : robot) :
  top_view_resolution (proximity_threshold r) * proximity_threshold r = 400.
Proof.
  unfold top_view_resolution; simpl fst.
  generalize (proximity_positive r); intros H. field. lra.
Qed.

Lemma mask_true (proximity : R) (p : point3) :
  mask proximity p = true -> 0 < pZ p <= proximity /\ -0.05 <= pY p.
Proof.
  unfold mask. rewrite !andb_true_iff, Rgtb_true, Rleb_true, Rgeb_true.
  tauto.
Qed.

(** X18: for the robots with a safety margin that is not negative (locobot,
    locobot2 and turtlebot4), a point that passes the filter of [_image_cb]
    is never dropped for its depth: its row in the grid is in bounds, so
    only its column can put it outside. *)
Theorem X18_depth_row_in_bounds_for_nonnegative_margin :
  forall (r : robot) (p : point3),
    0 <= safety_margin r ->
    mask (proximity_threshold r) p = true ->
    (0 <= img_y (rasterize (safety_margin r)
                           (top_view_resolution (proximity_threshold r)) p)
     < snd top_view_size)%Z.
Proof.
  intros r p Hm Hmask.
  apply mask_true in Hmask. destruct Hmask as [[HZ1 HZ2] _].
  generalize (proximity_positive r) (resolution_positive r)
             (resolution_times_proximity r)
             (shift_depth_floor (safety_margin r) (pZ p)).
  intros Hprox Hres Hmul Hfloor.
  assert (Hupper : shift_depth (safety_margin r) (pZ p)
                   <= proximity_threshold r).
  { unfold shift_depth, maximum. apply Rmax_lub; lra. }
  set (res := top_view_resolution (proximity_threshold r)) in *.
  set (Z' := shift_depth (safety_margin r) (pZ p)) in *.
  assert (H400 : Z' * res <= 400) by nra.
  assert (Hpos : 0 < Z' * res) by nra.
  unfold rasterize; cbn [img_y]. fold Z'. simpl snd. split.
  - apply int32_nonneg. lra.
  - apply int32_below; [reflexivity | lra].
Qed.

Lemma X18_depth_row_in_bounds_for_nonnegative_margin_witness :
  0 <= safety_margin turtlebot4
  /\ mask (proximity_threshold turtlebot4) (mkPoint 0 0 1) = true
  /\ (0 <= img_y (rasterize
                    (safety_margin turtlebot4)
                    (top_view_resolution (proximity_threshold turtlebot4))
                    (mkPoint 0 0 1))
      < snd top_view_size)%Z.
Proof.
  assert (H1 : 0 <= safety_margin turtlebot4) by (simpl; lra).
  assert (H2 : mask (proximity_threshold turtlebot4) (mkPoint 0 0 1) = true).
  { unfold mask; simpl.
    assert (E1 : Rgtb 1 0 = true) by (apply Rgtb_true; lra).
    assert (E2 : Rleb 1 1.4 = true) by (apply Rleb_true; lra).
    assert (E3 : Rgeb 0 (-0.05) = true) by (apply Rgeb_true; lra).
    now rewrite E1, E2, E3. }
  split; [exact H1|]. split; [exact H2|].
  exact (X18_depth_row_in_bounds_for_nonnegative_margin
           turtlebot4 (mkPoint 0 0 1) H1 H2).
Defined.

(** X19: the robomaster has a negative safety margin, which moves every
    depth 0.1 m away: a point that passes its filter with a depth of
    1.20325 m or more (up to the threshold 1.3 m) lands above the grid and
    is never an obstacle. *)
Theorem X19_robomaster_drops_the_farthest_points :
  forall p : point3,
    mask (proximity_threshold robomaster) p = true ->
    1.20325 <= pZ p ->
    valid (rasterize (safety_margin robomaster)
                     (top_view_resolution (proximity_threshold robomaster))
                     p) = false.
Proof.
  intros p Hmask HZ.
  apply mask_true in Hmask. destruct Hmask as [[HZ1 HZ2] _].
  simpl in HZ2.
  assert (Hshift : shift_depth (safety_margin robomaster) (pZ p)
                   = pZ p + 0.1).
  { unfold shift_depth, maximum; simpl. rewrite Rmax_left by lra. lra. }
  assert (Hy : (img_y (rasterize
                         (safety_margin robomaster)
                         (top_view_resolution
                            (proximity_threshold robomaster)) p) < 0)%Z).
  { unfold rasterize; cbn [img_y]. rewrite Hshift.
    destruct (Z.lt_ge_cases
                (int32 (IZR (snd top_view_size)
                        - (pZ p + 0.1)
                          * top_view_resolution
                              (proximity_threshold robomaster))) 0)
      as [Hlt|Hge]; [exact Hlt|].
    apply int32_nonneg in Hge.
    unfold top_view_resolution in Hge; simpl in Hge. lra. }
  unfold valid. apply Z.leb_gt in Hy. rewrite Hy.
  now rewrite andb_false_r.
Qed.

Lemma X19_robomaster_drops_the_farthest_points_witness :
  mask (proximity_threshold robomaster) (mkPoint 0 0 1.25) = true
  /\ 1.20325 <= pZ (mkPoint 0 0 1.25)
  /\ valid (rasterize (safety_margin robomaster)
                      (top_view_resolution (proximity_threshold robomaster))
                      (mkPoint 0 0 1.25)) = false.
Proof.
  assert (H1 : mask (proximity_threshold robomaster) (mkPoint 0 0 1.25)
               = true).
  { unfold mask; simpl.
    assert (E1 : Rgtb 1.25 0 = true) by (apply Rgtb_true; lra).
    assert (E2 : Rleb 1.25 1.3 = true) by (apply Rleb_true; lra).
    assert (E3 : Rgeb 0 (-0.05) = true) by (apply Rgeb_true; lra).
    now rewrite E1, E2, E3. }
  assert (H2 : 1.20325 <= pZ (mkPoint 0 0 1.25)) by (simpl; lra).
  split; [exact H1|]. split; [exact H2|].
  exact (X19_robomaster_drops_the_farthest_points (mkPoint 0 0 1.25) H1 H2).
Defined.

End RobotExtras.

(** ** The overlay and the messages *)

Module VizExtras.

Import Np NpFacts Corrector Node Viz ForceExtras.

Lemma trace_apf_from (o : pixel) (post : trajectory) :
  forall (pre : trajectory) (pts : list pixel),
    fold_left (trace_step_apf o) post (fold_left add pre zeros, pts)
    = (fold_left add (pre ++ post) zeros,
       pts ++ map (fun k =>
                     let acc := fold_left add (firstn k (pre ++ post)) zeros in
                     (py_int (IZR (fst o) - snd acc * 3.0 * 1.0),
                      py_int (IZR (snd o) - fst acc * 3.0)))
                  (seq (S (length pre)) (length post))).
Proof.
  induction post as [|d post IH]; intros pre pts.
  - simpl. now rewrite !app_nil_r.
  - cbn [fold_left length seq map].
    assert (Hstep : trace_step_apf o (fold_left add pre zeros, pts) d
                    = (fold_left add (pre ++ [d]) zeros,
                       pts ++ [(py_int (IZR (fst o)
                                        - snd (fold_left add (pre ++ [d]) zeros)
                                          * 3.0 * 1.0),
                                py_int (IZR (snd o)
                                        - fst (fold_left add (pre ++ [d]) zeros)
                                          * 3.0))])).
    { rewrite fold_left_app. reflexivity. }
    rewrite Hstep, IH.
    rewrite <- !app_assoc. cbn [app].
    rewrite length_app. cbn [length]. rewrite Nat.add_1_r.
    f_equal. f_equal. f_equal.
    replace (firstn (S (length pre)) (pre ++ d :: post)) with (pre ++ [d]).
    + reflexivity.
    + change (d :: post) with ([d] ++ post). rewrite app_assoc.
      rewrite firstn_app.
      rewrite length_app. cbn [length].
      replace (S (length pre) - (length pre + 1))%nat with O by lia.
      rewrite firstn_O, app_nil_r.
      rewrite firstn_all2; [reflexivity|].
      rewrite length_app; simpl; lia.
Qed.

Lemma points_apf_path (o : pixel) (traj : trajectory) :
  points_apf o traj
  = o :: map (fun k =>
                let acc := fold_left add (firstn k traj) zeros in
                (py_int (IZR (fst o) - snd acc * 3.0 * 1.0),
                 py_int (IZR (snd o) - fst acc * 3.0)))
             (seq 1 (length traj)).
Proof.
  unfold points_apf.
  change (0, 0, [o]) with (fold_left add [] zeros, [o]).
  rewrite (trace_apf_from o traj [] [o]). reflexivity.
Qed.

(** X20: the overlay of explore_apf.py draws a trajectory as a path from the
    robot: the first point is the origin and point [k] is the origin moved
    by the sum of the first [k] entries of the trajectory, 3 pixels per
    unit, forward up and left to the left, each coordinate cut to an
    integer. *)
Theorem X20_overlay_accumulates_the_steps :
  forall (o : pixel) (traj : trajectory),
    points_apf o traj
    = o :: map (fun k =>
                  let acc := fold_left add (firstn k traj) zeros in
                  (py_int (IZR (fst o) - snd acc * 3.0 * 1.0),
                   py_int (IZR (snd o) - fst acc * 3.0)))
               (seq 1 (length traj)).
Proof. exact points_apf_path. Qed.

Lemma points_apf_length (o : pixel) (traj : trajectory) :
  length (points_apf o traj) = S (length traj).
Proof.
  rewrite points_apf_path. cbn [length].
  now rewrite length_map, length_seq.
Qed.

Lemma trace_length (o : pixel) (traj : trajectory) :
  forall st : R * R * list pixel,
    length (snd (fold_left (trace_step o) traj st))
    = (length (snd st) + length traj)%nat.
Proof.
  induction traj as [|d traj IH]; intros st; cbn [fold_left length].
  - lia.
  - rewrite IH. unfold trace_step; cbn [snd].
    rewrite length_app; cbn [length]. lia.
Qed.

Lemma points_length (o : pixel) (traj : trajectory) :
  length (points o traj) = length traj.
Proof. unfold points. now rewrite trace_length. Qed.

Lemma polylines_apf_count (o : pixel) (flag : bool) (b : batch) :
  forall i,
    length (flat_map (draw_apf o flag) (combine (seq i (length b)) b))
    = length (filter (fun t : trajectory => (1 <=? length t)%nat) b).
Proof.
  induction b as [|t b IH]; intros i; cbn [length seq combine flat_map filter];
    [reflexivity|].
  rewrite length_app, IH. unfold draw_apf; cbn [fst snd].
  rewrite points_apf_length.
  destruct t as [|d t]; reflexivity.
Qed.

Lemma polylines_count (o : pixel) (b : batch) :
  forall i,
    length (flat_map (draw o) (combine (seq i (length b)) b))
    = length (filter (fun t : trajectory => (2 <=? length t)%nat) b).
Proof.
  induction b as [|t b IH]; intros i; cbn [length seq combine flat_map filter];
    [reflexivity|].
  rewrite length_app, IH. unfold draw; cbn [fst snd].
  rewrite points_length.
  destruct (2 <=? length t)%nat; reflexivity.
Qed.

(** X21: the overlay of explore_apf.py draws one path for every trajectory
    of the batch that has at least one step; the overlay of explore.py,
    which does not start its paths at the robot, draws one for every
    trajectory that has at least two steps and leaves out the others. *)
Theorem X21_which_trajectories_are_drawn :
  forall (o : pixel) (is_apf_applied : bool) (traj_batch : batch),
    length (polylines_apf o is_apf_applied traj_batch)
    = length (filter (fun t : trajectory => (1 <=? length t)%nat) traj_batch)
    /\ length (polylines o traj_batch)
       = length (filter (fun t : trajectory => (2 <=? length t)%nat)
                        traj_batch).
Proof.
  intros o flag b. split.
  - apply polylines_apf_count.
  - apply polylines_count.
Qed.

Lemma trace_from (o : pixel) (post : trajectory) :
  forall (pre : trajectory) (pts : list pixel),
    fold_left (trace_step o) post (fold_left add pre zeros, pts)
    = (fold_left add (pre ++ post) zeros,
       pts ++ map (fun k =>
                     let acc := fold_left add (firstn k (pre ++ post)) zeros in
                     let d := nth (k - 1) (pre ++ post) zeros in
                     (py_int (IZR (fst o) - snd d * 3.0),
                      py_int (IZR (snd o) - fst acc * 3.0)))
                  (seq (S (length pre)) (length post))).
Proof.
  induction post as [|d post IH]; intros pre pts.
  - simpl. now rewrite !app_nil_r.
  - cbn [fold_left length seq map].
    assert (Hstep : trace_step o (fold_left add pre zeros, pts) d
                    = (fold_left add (pre ++ [d]) zeros,
                       pts ++ [(py_int (IZR (fst o) - snd d * 3.0),
                                py_int (IZR (snd o)
                                        - fst (fold_left add (pre ++ [d]) zeros)
                                          * 3.0))])).
    { rewrite fold_left_app. reflexivity. }
    rewrite Hstep, IH.
    rewrite <- !app_assoc. cbn [app].
    rewrite length_app. cbn [length]. rewrite Nat.add_1_r.
    f_equal. f_equal. f_equal.
    replace (firstn (S (length pre)) (pre ++ d :: post)) with (pre ++ [d]).
    + cbv zeta. replace (S (length pre) - 1)%nat with (length pre) by lia.
      rewrite app_nth2 by lia. rewrite Nat.sub_diag. reflexivity.
    + change (d :: post) with ([d] ++ post). rewrite app_assoc.
      rewrite firstn_app.
      rewrite length_app. cbn [length].
      replace (S (length pre) - (length pre + 1))%nat with O by lia.
      rewrite firstn_O, app_nil_r.
      rewrite firstn_all2; [reflexivity|].
      rewrite length_app; simpl; lia.
Qed.

(** X23: the overlay of explore.py does not start at the robot, and it
    takes the two coordinates of a point from different things: the row of
    point [k] from the sum of the first [k] forward entries, the column
    from the lateral entry of step [k] alone. *)
Theorem X23_overlay_of_explore_mixes_step_and_sum :
  forall (o : pixel) (traj : trajectory),
    points o traj
    = map (fun k =>
             let acc := fold_left add (firstn k traj) zeros in
             let d := nth (k - 1) traj zeros in
             (py_int (IZR (fst o) - snd d * 3.0),
              py_int (IZR (snd o) - fst acc * 3.0)))
          (seq 1 (length traj)).
Proof.
  intros o traj. unfold points.
  change (0, 0, @nil pixel) with (fold_left add [] zeros, @nil pixel).
  rewrite (trace_from o traj [] []). reflexivity.
Qed.

(** *** The sampled-actions message *)

Lemma row_layout (t : trajectory) (tail : list R) :
  forall j,
    (j < length t)%nat ->
    nth (2 * j) (flat_map (fun p : vec2 => [fst p; snd p]) t ++ tail) 0
    = fst (nth j t zeros)
    /\ nth (2 * j + 1) (flat_map (fun p : vec2 => [fst p; snd p]) t ++ tail) 0
       = snd (nth j t zeros).
Proof.
  induction t as [|p t IH]; intros j Hj; cbn [length] in Hj; [lia|].
  destruct j as [|j].
  - split; reflexivity.
  - replace (2 * S j)%nat with (S (S (2 * j))) by lia.
    replace (S (S (2 * j)) + 1)%nat with (S (S (2 * j + 1))) by lia.
    cbn [flat_map app nth]. apply IH. lia.
Qed.

Lemma row_length (t : trajectory) :
  length (flat_map (fun p : vec2 => [fst p; snd p]) t) = (2 * length t)%nat.
Proof.
  induction t as [|p t IH]; cbn [flat_map length app]; [reflexivity|].
  rewrite IH. lia.
Qed.

Lemma flatten_layout (L : nat) (b : batch) :
  Forall (fun t => length t = L) b ->
  forall i j,
    (i < length b)%nat -> (j < L)%nat ->
    nth (2 * (i * L + j)) (flatten b) 0 = fst (nth j (nth i b []) zeros)
    /\ nth (2 * (i * L + j) + 1) (flatten b) 0
       = snd (nth j (nth i b []) zeros).
Proof.
  unfold flatten.
  induction 1 as [|t b Ht _ IH]; intros i j Hi Hj; cbn [length] in Hi; [lia|].
  cbn [flat_map]. destruct i as [|i].
  - cbn [nth]. replace (0 * L + j)%nat with j by lia.
    apply row_layout. lia.
  - cbn [nth].
    assert (Hlen := row_length t). rewrite Ht in Hlen.
    rewrite !app_nth2 by lia. rewrite Hlen.
    replace (2 * (S i * L + j) - 2 * L)%nat with (2 * (i * L + j))%nat by lia.
    replace (2 * (S i * L + j) + 1 - 2 * L)%nat
      with (2 * (i * L + j) + 1)%nat by lia.
    apply IH; lia.
Qed.

(** X22: the sampled-actions message can be read back: for a batch of [N]
    trajectories of [L] steps it holds [1 + 2*N*L] numbers, the first is the
    flag [0], and step [j] of trajectory [i] is at positions
    [1 + 2*(i*L + j)] (its [x]) and [2 + 2*(i*L + j)] (its [y]). *)
Theorem X22_sampled_actions_layout :
  forall (L : nat) (traj_batch : batch) (i j : nat),
    Forall (fun t => length t = L) traj_batch ->
    (i < length traj_batch)%nat -> (j < L)%nat ->
    let data := 0 :: flatten traj_batch in
    length data = (1 + 2 * (length traj_batch * L))%nat
    /\ nth 0 data 0 = 0
    /\ nth (1 + 2 * (i * L + j)) data 0
       = fst (nth j (nth i traj_batch []) zeros)
    /\ nth (2 + 2 * (i * L + j)) data 0
       = snd (nth j (nth i traj_batch []) zeros).
Proof.
  intros L b i j Hrect Hi Hj data. unfold data.
  destruct (flatten_layout L b Hrect i j Hi Hj) as [Hx Hy].
  split; [cbn [length]; now rewrite (TickExtras.flatten_length b L Hrect)|].
  split; [reflexivity|].
  split; [exact Hx|].
  replace (2 + 2 * (i * L + j))%nat with (S (2 * (i * L + j) + 1)) by lia.
  exact Hy.
Qed.

Lemma X22_sampled_actions_layout_witness :
  Forall (fun t : trajectory => length t = 2%nat)
         [[(1, 2); (3, 4)]; [(5, 6); (7, 8)]]
  /\ (1 < length [[(1, 2); (3, 4)]; [(5, 6); (7, 8)]])%nat
  /\ (0 < 2)%nat
  /\ nth (1 + 2 * (1 * 2 + 0))
         (0 :: flatten [[(1, 2); (3, 4)]; [(5, 6); (7, 8)]]) 0
     = fst (nth 0 (nth 1 [[(1, 2); (3, 4)]; [(5, 6); (7, 8)]] []) zeros).
Proof.
  assert (H1 : Forall (fun t : trajectory => length t = 2%nat)
                      [[(1, 2); (3, 4)]; [(5, 6); (7, 8)]])
    by (constructor; [reflexivity|]; constructor; [reflexivity|constructor]).
  assert (H2 : (1 < length [[(1, 2); (3, 4)]; [(5, 6); (7, 8)]])%nat)
    by (simpl; lia).
  assert (H3 : (0 < 2)%nat) by lia.
  split; [exact H1|]. split; [exact H2|]. split; [exact H3|].
  exact (proj1 (proj2 (proj2 (X22_sampled_actions_layout
                                2 [[(1, 2); (3, 4)]; [(5, 6); (7, 8)]]
                                1 0 H1 H2 H3)))).
Defined.

End VizExtras.
